(** * Deutsch Lernen: the mastery store, the sampler and the session logic

    A shallow embedding of [terminal/game.py].  The progress document is the
    dictionary that [load_progress] builds; the per-word records live in a
    finite map keyed by ["category:word"].  Python integers are [Z]. *)

From Stdlib Require Import ZArith List Bool Lia Permutation QArith.
From Stdlib Require Import Ascii String.
From stdpp Require Import base option list gmap strings fin_maps.

Local Open Scope Z_scope.

(** ** The progress document *)

(** One record of [progress["words"]]: the dictionary
    [{"mastery": _, "correct": _, "wrong": _}]. *)
Record entry : Type := Entry {
  mastery : Z;
  correct : Z;
  wrong : Z
}.

(** The dictionary returned by [load_progress]. *)
Record progress : Type := Progress {
  xp : Z;
  streak : Z;
  last_played : string;
  best_speed : Z;
  words : gmap string entry
}.

Definition set_words (p : progress) (ws : gmap string entry) : progress :=
  Progress (xp p) (streak p) (last_played p) (best_speed p) ws.

Definition set_xp (p : progress) (v : Z) : progress :=
  Progress v (streak p) (last_played p) (best_speed p) (words p).

Definition set_best_speed (p : progress) (v : Z) : progress :=
  Progress (xp p) (streak p) (last_played p) v (words p).

(** The fresh structure of [load_progress]. *)
Definition fresh_progress : progress := Progress 0 0 "" 0 ∅.

(** [f"{category}:{de_word}"] *)
Definition get_word_key (category de_word : string) : string :=
  category +:+ ":" +:+ de_word.

(** The default of [setdefault] in [record_answer] and in learn mode. *)
Definition new_entry : entry := Entry 0 0 0.

(** [progress["words"].get(key, {}).get("mastery", 0)] *)
Definition get_mastery (p : progress) (category de_word : string) : Z :=
  match words p !! get_word_key category de_word with
  | Some e => mastery e
  | None => 0
  end.

(** [record_answer]: [setdefault] followed by the in-place update of the
    record it returned. *)
Definition record_answer (p : progress) (category de_word : string)
    (is_correct : bool) : progress :=
  let key := get_word_key category de_word in
  let e := default new_entry (words p !! key) in
  let e' :=
    if is_correct
    then Entry (Z.min (mastery e + 1) 5) (correct e + 1) (wrong e)
    else Entry (Z.max (mastery e - 1) 0) (correct e) (wrong e + 1) in
  set_words p (<[key := e']> (words p)).

(** A sequence of calls, oldest first. *)
Definition record_answers (p : progress) (calls : list (string * string * bool))
    : progress :=
  fold_left (fun q c => record_answer q c.1.1 c.1.2 c.2) calls p.

(** The data-model invariant [0 <= mastery <= 5] on every stored record. *)
Definition mastery_bounded (p : progress) : Prop :=
  map_Forall (fun _ e => 0 <= mastery e <= 5) (words p).

(** The record a (category, word) pair stands for: the stored one, or the one
    [setdefault] would create. *)
Definition entry_of (p : progress) (category de_word : string) : entry :=
  default new_entry (words p !! get_word_key category de_word).



(** ** Vocabulary *)

(** A word of a category file: the ["de"] and ["en"] fields are the only ones
    the engine reads. *)
Record word : Type := Word {
  de : string;
  en : string
}.

(** ** The world around the engine

    The random module, the wall clock and the learner are oracles: the k-th
    call of each returns what the oracle says at k.  [random.shuffle] applies
    a permutation of positions. *)
Inductive reply : Type :=
  | NotANumber                (* [int(answer)] raises ValueError *)
  | Number (z : Z).           (* [int(answer)] *)

Record env : Type := Env {
  rand_index : nat → nat → nat;       (* call, population size: [random.choices] *)
  rand_perm : nat → nat → list nat;   (* call, length: [random.shuffle] *)
  rand_coin : nat → bool;             (* call: [random.random() < 0.5] *)
  clock : nat → Z;                    (* reading: [time.time()], milliseconds *)
  pick : nat → nat → nat;             (* prompt, number of choices: validated [Prompt.ask] *)
  typed : nat → reply                 (* prompt: free [Prompt.ask] of the speed round *)
}.

(** What the random module and the validating prompt guarantee. *)
Definition env_sound (E : env) : Prop :=
  (∀ k n, (0 < n)%nat → (rand_index E k n < n)%nat) ∧
  (∀ k n, Permutation (rand_perm E k n) (seq 0 n)) ∧
  (∀ k n, (0 < n)%nat → (1 ≤ pick E k n ≤ n)%nat).

(** What reaches the learner or the disk. *)
Inductive event : Type :=
  | Say (msg : string)                                   (* [console.print] of a message *)
  | PressEnter                                           (* [press_enter_to_continue] *)
  | Ready                                                (* the start prompt of the speed round *)
  | Question (prompt_text : string) (choices : list string)
  | Asked                                                (* [Prompt.ask] for an answer *)
  | Feedback (ok : bool)                                 (* the right/wrong message *)
  | Saved (p : progress)                                 (* [save_progress] *)
  | Report (score total : Z).                            (* the final panel *)

Record world : Type := World {
  doc : progress;        (* the shared progress dictionary *)
  log : list event;      (* newest first *)
  rng : nat;             (* calls of the random module so far *)
  ticks : nat;           (* clock readings so far *)
  prompts : nat          (* answers read so far *)
}.

Inductive exn : Type := ZeroDivisionError | ValueError | IndexError.

Inductive result (A : Type) : Type :=
  | Done (a : A) (w : world)
  | Raised (e : exn)
  | OutOfFuel.
Arguments Done {A} a w.
Arguments Raised {A} e.
Arguments OutOfFuel {A}.

(** State passing with exceptions. *)
Definition M (A : Type) : Type := world → result A.

#[global] Instance M_ret : MRet M := λ A a w, Done a w.
#[global] Instance M_bind : MBind M := λ A B f m w,
  match m w with
  | Done a w' => f a w'
  | Raised e => Raised e
  | OutOfFuel => OutOfFuel
  end.

Definition raise {A} (e : exn) : M A := λ _, Raised e.
Definition out_of_fuel {A} : M A := λ _, OutOfFuel.

Definition get_doc : M progress := λ w, Done (doc w) w.
Definition put_doc (p : progress) : M unit := λ w,
  Done () (World p (log w) (rng w) (ticks w) (prompts w)).
Definition emit (ev : event) : M unit := λ w,
  Done () (World (doc w) (ev :: log w) (rng w) (ticks w) (prompts w)).

Definition random_index (E : env) (n : nat) : M nat := λ w,
  Done (rand_index E (rng w) n) (World (doc w) (log w) (S (rng w)) (ticks w) (prompts w)).
Definition random_perm (E : env) (n : nat) : M (list nat) := λ w,
  Done (rand_perm E (rng w) n) (World (doc w) (log w) (S (rng w)) (ticks w) (prompts w)).
Definition random_coin (E : env) : M bool := λ w,
  Done (rand_coin E (rng w)) (World (doc w) (log w) (S (rng w)) (ticks w) (prompts w)).
Definition time_time (E : env) : M Z := λ w,
  Done (clock E (ticks w)) (World (doc w) (log w) (rng w) (S (ticks w)) (prompts w)).
Definition ask_pick (E : env) (n : nat) : M nat := λ w,
  Done (pick E (prompts w) n)
       (World (doc w) (Asked :: log w) (rng w) (ticks w) (S (prompts w))).
Definition ask_typed (E : env) : M reply := λ w,
  Done (typed E (prompts w))
       (World (doc w) (Asked :: log w) (rng w) (ticks w) (S (prompts w))).

(** [save_progress]: the whole document is written. *)
Definition save_progress : M unit := p ← get_doc; emit (Saved p).

(** [press_enter_to_continue] *)
Definition press_enter_to_continue : M unit := emit PressEnter.

(** [random.shuffle] with the permutation [σ] of positions. *)
Definition shuffle_by {A} (σ : list nat) (l : list A) : list A :=
  omap (λ i, l !! i) σ.

Definition random_shuffle {A} (E : env) (l : list A) : M (list A) :=
  σ ← random_perm E (length l); mret (shuffle_by σ l).

Definition len {A} (l : list A) : Z := Z.of_nat (length l).

(** [sum] of a list of integers. *)
Definition sum (l : list Z) : Z := fold_left Z.add l 0.

(** A concrete world for the examples: the weighted draws walk through the
    positions, every shuffle reverses, the learner always takes the last
    choice, the clock advances 7 s per reading. *)
Definition demo_env : env := {|
  rand_index := λ k n, Nat.modulo (Nat.div k 2) n;
  rand_perm := λ _ n, rev (seq 0 n);
  rand_coin := λ k, Nat.even k;
  clock := λ k, 7000 * Z.of_nat k;
  pick := λ _ n, n;
  typed := λ k, if Nat.even k then Number 1 else NotANumber
|}.

(** A world whose weighted draws always hit position 0. *)
Definition stuck_env : env := {|
  rand_index := λ _ _, 0%nat;
  rand_perm := λ _ n, rev (seq 0 n);
  rand_coin := λ _, true;
  clock := λ k, 7000 * Z.of_nat k;
  pick := λ _ _, 1%nat;
  typed := λ _, Number 0
|}.

Definition world0 (p : progress) : world := World p [] 0 0 0.

(** Total and partial correctness of a computation from a given world. *)
Definition wp {A} (m : M A) (Q : A → world → Prop) (W : world) : Prop :=
  ∃ a W', m W = Done a W' ∧ Q a W'.

Definition wlp {A} (m : M A) (Q : A → world → Prop) (W : world) : Prop :=
  ∀ a W', m W = Done a W' → Q a W'.

(** ** Spaced repetition: weighted word selection *)

(** [5 - m + 1]: mastery 0 gives weight 6, mastery 5 gives weight 1. *)
Definition weight (p : progress) (category : string) (w : word) : Z :=
  5 - get_mastery p category (de w) + 1.

(** The [while] loop of [weighted_sample]. *)
Fixpoint sample_loop (E : env) (words : list word) (n : Z) (fuel : nat)
    (attempts : Z) (chosen_indices : gset nat) (result : list word)
    : M (gset nat * list word) :=
  if (len result <? n) && (attempts <? n * 20) then
    match fuel with
    | O => out_of_fuel
    | S fuel =>
        idx ← random_index E (length words);
        if decide (idx ∈ chosen_indices)
        then sample_loop E words n fuel (attempts + 1) chosen_indices result
        else
          match words !! idx with
          | None => raise IndexError
          | Some w =>
              sample_loop E words n fuel (attempts + 1)
                ({[idx]} ∪ chosen_indices) (result ++ [w])
          end
    end
  else mret (chosen_indices, result).

(** [[w for i, w in enumerate(words) if i not in chosen_indices]] *)
Definition remaining_words (words : list word) (chosen_indices : gset nat)
    : list word :=
  (filter (λ iw, iw.1 ∉ chosen_indices) (imap pair words)).*2.

Definition weighted_sample (E : env) (category : string) (words : list word)
    (n : Z) : M (list word) :=
  match words with
  | [] => mret []
  | _ =>
      p ← get_doc;
      let weights := map (weight p category) words in
      let total := sum weights in
      if total =? 0 then raise ZeroDivisionError
      else
        let n := Z.min n (len words) in
        r ← sample_loop E words n (Z.to_nat (n * 20)) 0 ∅ [];
        let chosen_indices := r.1 in
        let result := r.2 in
        if len result <? n then
          remaining ← random_shuffle E (remaining_words words chosen_indices);
          mret (result ++ take (Z.to_nat (n - len result)) remaining)
        else mret result
  end.

(** [res] holds the words found at the positions [idxs], in that order. *)
Definition picked_at (words : list word) (idxs : list nat) (res : list word) : Prop :=
  Forall2 (λ i w, words !! i = Some w) idxs res.

(** ** Umlaut-lenient matching

    Text is a sequence of code points of the Latin-1 range, the alphabet of
    the vocabulary files: the character with code [n] of Rocq's [ascii] type
    stands for the code point U+00nn.  On that range [str.lower] adds 32 to
    A..Z and to U+00C0..U+00DE except the multiplication sign U+00D7, and
    [str.strip] removes the code points for which [str.isspace] holds. *)

Definition u_uml : ascii := "252"%char.   (* ü *)
Definition o_uml : ascii := "246"%char.   (* ö *)
Definition a_uml : ascii := "228"%char.   (* ä *)
Definition U_uml : ascii := "220"%char.   (* Ü *)
Definition O_uml : ascii := "214"%char.   (* Ö *)
Definition A_uml : ascii := "196"%char.   (* Ä *)
Definition eszett : ascii := "223"%char.  (* ß *)

Definition lower_char (c : ascii) : ascii :=
  let n := nat_of_ascii c in
  if ((65 <=? n) && (n <=? 90) || (192 <=? n) && (n <=? 222) && negb (n =? 215))%nat
  then ascii_of_nat (n + 32)
  else c.

Definition isspace (c : ascii) : bool :=
  let n := nat_of_ascii c in
  ((9 <=? n) && (n <=? 13) || (28 <=? n) && (n <=? 32) || (n =? 133) || (n =? 160))%nat.

(** [str.lower] *)
Definition str_lower (t : list ascii) : list ascii := map lower_char t.

Fixpoint lstrip (t : list ascii) : list ascii :=
  match t with
  | [] => []
  | c :: t' => if isspace c then lstrip t' else t
  end.

(** [str.strip] *)
Definition str_strip (t : list ascii) : list ascii :=
  rev (lstrip (rev (lstrip t))).

(** [str.replace(old, new)] for a one-character [old]. *)
Definition str_replace (old : ascii) (new : list ascii) (t : list ascii)
    : list ascii :=
  flat_map (λ c, if Ascii.eqb c old then new else [c]) t.

(** The three [replace] lines of [normalize_german]. *)
Definition replace_umlauts (t : list ascii) : list ascii :=
  let t := str_replace a_uml ["a"%char]
             (str_replace o_uml ["o"%char] (str_replace u_uml ["u"%char] t)) in
  let t := str_replace A_uml ["a"%char]
             (str_replace O_uml ["o"%char] (str_replace U_uml ["u"%char] t)) in
  let t := str_replace eszett ["s"%char; "s"%char] t in
  t.

Definition normalize_chars (text : list ascii) : list ascii :=
  let t := str_strip (str_lower text) in
  replace_umlauts t.

Definition normalize_german (text : string) : string :=
  string_of_list_ascii (normalize_chars (list_ascii_of_string text)).

(** The comparison of [type_it_mode]. *)
Definition matches (input expected : string) : bool :=
  String.eqb (normalize_german input) (normalize_german expected).

(** The rewriting the specification describes: ü→u, ö→o, ä→a, ß→ss and
    nothing else. *)
Definition fold_diacritic (c : ascii) : list ascii :=
  if Ascii.eqb c u_uml then ["u"%char]
  else if Ascii.eqb c o_uml then ["o"%char]
  else if Ascii.eqb c a_uml then ["a"%char]
  else if Ascii.eqb c eszett then ["s"%char; "s"%char]
  else [c].

Definition normalize_spec (text : string) : string :=
  string_of_list_ascii
    (flat_map fold_diacritic (str_lower (str_strip (list_ascii_of_string text)))).

(** The sample strings of the specification. *)
Definition Mueller_uml : string := String "M" (String u_uml "ller").   (* Müller *)
Definition fuer_uml : string := String "f" (String u_uml "r").         (* für *)

(** No white space at the front. *)
Definition starts_clean (t : list ascii) : Prop :=
  match t with
  | [] => True
  | c :: _ => isspace c = false
  end.

(** No white space at either end: what [str.strip] leaves. *)
Definition trimmed (t : list ascii) : Prop :=
  starts_clean t ∧ starts_clean (rev t).

(** ** Progress aggregation *)

(** [sum(1 for x in xs)]: one per element that the generator yields. *)
Definition count_ones {A} (xs : list A) : Z := sum (map (λ _, 1) xs).

(** The stored records, as [progress["words"].values()] yields them. *)
Definition words_values (p : progress) : list entry := (map_to_list (words p)).*2.

(** [category_completion]: the quotient of two integers, kept exact. *)
Definition category_completion (p : progress) (category : string)
    (words : list word) : Q :=
  match words with
  | [] => 0%Q
  | _ =>
      let learned :=
        count_ones (filter (λ w, 3 <= get_mastery p category (de w)) words) in
      (inject_Z learned / inject_Z (len words))%Q
  end.

Definition words_learned_count (p : progress) : Z :=
  count_ones (filter (λ e, 3 <= mastery e) (words_values p)).

(** A word is learned when its mastery is at least 3. *)
Definition learned (p : progress) (category : string) (w : word) : Prop :=
  3 <= get_mastery p category (de w).

(** The stored records with mastery at least 3. *)
Definition learned_records (p : progress) : gmap string entry :=
  filter (λ ke, 3 <= mastery ke.2) (words p).

#[global] Instance learned_dec p category w : Decision (learned p category w) :=
  Z_le_dec 3 (get_mastery p category (de w)).

(** ** The daily streak

    A [datetime.date] is its year, month and day; [isoformat] prints
    ["YYYY-MM-DD"]. *)
Record date : Type := Date {
  year : Z;
  month : Z;
  day : Z
}.

Definition is_leap (y : Z) : bool :=
  (y mod 4 =? 0) && (negb (y mod 100 =? 0) || (y mod 400 =? 0)).

Definition days_in_month (y m : Z) : Z :=
  if m =? 2 then (if is_leap y then 29 else 28)
  else if (m =? 4) || (m =? 6) || (m =? 9) || (m =? 11) then 30
  else 31.

(** The dates [datetime.date] can hold. *)
Definition valid_date (d : date) : Prop :=
  1 <= year d <= 9999 ∧ 1 <= month d <= 12 ∧
  1 <= day d <= days_in_month (year d) (month d).

(** [d - timedelta(days=1)]; [None] is the OverflowError below [date.min]. *)
Definition yesterday (d : date) : option date :=
  if 1 <? day d then Some (Date (year d) (month d) (day d - 1))
  else if 1 <? month d
       then Some (Date (year d) (month d - 1) (days_in_month (year d) (month d - 1)))
       else if 1 <? year d then Some (Date (year d - 1) 12 31)
            else None.

(** Calendar order. *)
Definition date_lt (a b : date) : Prop :=
  year a < year b ∨
  (year a = year b ∧ (month a < month b ∨ (month a = month b ∧ day a < day b))).

Definition digit (n : Z) : ascii := ascii_of_nat (48 + Z.to_nat (n mod 10)).

(** ["%04d-%02d-%02d"] *)
Definition isoformat (d : date) : string :=
  String (digit (year d / 1000)) (String (digit (year d / 100))
  (String (digit (year d / 10)) (String (digit (year d))
  (String "-"
  (String (digit (month d / 10)) (String (digit (month d))
  (String "-"
  (String (digit (day d / 10)) (String (digit (day d)) EmptyString))))))))).

Definition set_streak (p : progress) (v : Z) : progress :=
  Progress (xp p) v (last_played p) (best_speed p) (words p).

Definition set_last_played (p : progress) (s : string) : progress :=
  Progress (xp p) (streak p) s (best_speed p) (words p).

(** [update_streak]; [today] and [today'] are the two readings of
    [date.today()] that are compared with the stored date, [None] is the
    OverflowError of the subtraction. *)
Definition update_streak (today today' : date) (p : progress) : option progress :=
  let last := last_played p in
  if String.eqb last (isoformat today) then Some p
  else
    y ← yesterday today';
    let p :=
      if String.eqb last (isoformat y) then set_streak p (streak p + 1)
      else if String.eqb last "" then set_streak p 1
      else set_streak p 1 in
    Some (set_last_played p (isoformat today)).

(** ** Session controllers *)

(** Python indexing [l[i]], negative positions counting from the end;
    [None] is the IndexError. *)
Definition py_index {A} (l : list A) (i : Z) : option A :=
  if (0 <=? i) && (i <? len l) then l !! Z.to_nat i
  else if (- len l <=? i) && (i <? 0) then l !! Z.to_nat (len l + i)
  else None.

(** [random.choices(population, weights=weights, k=1)[0]] with integer
    weights: a ValueError unless the total is positive. *)
Definition random_choices {A} (E : env) (population : list A) (weights : list Z)
    : M A :=
  if sum weights <=? 0 then raise ValueError
  else
    idx ← random_index E (length population);
    match population !! idx with
    | Some x => mret x
    | None => raise IndexError
    end.

(** [while len(choices) < 4 and wrong_pool: choices.append(wrong_pool.pop())];
    the pool is read from its end, so it is passed reversed. *)
Fixpoint pad_choices (choices wrong_pool_rev : list string) : list string :=
  match wrong_pool_rev with
  | [] => choices
  | x :: rest =>
      if len choices <? 4 then pad_choices (choices ++ [x]) rest else choices
  end.

(** The choices of one quiz question (either branch of the direction test,
    [field] being ["de"] or ["en"]), with the repair of line 500. *)
Definition quiz_choices (E : env) (field : word → string) (words : list word)
    (correct_answer : string) : M (list string) :=
  let wrong_pool := map field (filter (λ w, field w ≠ correct_answer) words) in
  wrong_pool ← random_shuffle E wrong_pool;
  let choices := correct_answer :: take 3 wrong_pool in
  let choices := pad_choices choices (rev wrong_pool) in
  choices ← random_shuffle E choices;
  if len choices <? 2
  then mret (remove_dups (choices ++ [correct_answer]))
  else mret choices.

(** The scoring of one answer: [record_answer], the XP award on a correct
    answer, the message, and the write-through. *)
Definition score_answer (category : string) (w : word) (ok : bool) (award : Z)
    : M unit :=
  p ← get_doc;
  put_doc (record_answer p category (de w) ok);;
  (if ok then p ← get_doc; put_doc (set_xp p (xp p + award)) else (mret () : M unit));;
  emit (Feedback ok);;
  save_progress.

(** One iteration of the [for] loop of [quiz_mode]; returns whether the
    selected choice was the correct answer. *)
Definition quiz_question (E : env) (category : string) (words : list word)
    (qi : Z) (w : word) : M bool :=
  let prompt_text := if qi mod 2 =? 1 then en w else de w in
  let correct_answer := if qi mod 2 =? 1 then de w else en w in
  choices ← quiz_choices E (if qi mod 2 =? 1 then de else en) words correct_answer;
  emit (Question prompt_text choices);;
  answer ← ask_pick E (length choices);
  match py_index choices (Z.of_nat answer - 1) with
  | None => raise IndexError
  | Some selected =>
      let ok := String.eqb selected correct_answer in
      score_answer category w ok 10;;
      mret ok
  end.

Fixpoint quiz_loop (E : env) (category : string) (words : list word) (qi : Z)
    (questions : list word) (score : Z) : M Z :=
  match questions with
  | [] => mret score
  | w :: rest =>
      ok ← quiz_question E category words qi w;
      quiz_loop E category words (qi + 1) rest (if ok : bool then score + 1 else score)
  end.

Definition quiz_mode (E : env) (category : string) (words : list word) : M unit :=
  if len words <? 2 then
    emit (Say "[red]Not enough words for a quiz in this category.[/red]");;
    press_enter_to_continue
  else
    let n_questions := Z.min 10 (len words) in
    questions ← weighted_sample E category words n_questions;
    score ← quiz_loop E category words 1 questions 0;
    emit (Report score n_questions);;
    press_enter_to_continue.

(** The speed round lasts 60 seconds. *)
Definition duration : Z := 60000.

(** The [while True] loop of [speed_round]; returns [(score, total)]. *)
Fixpoint speed_loop (E : env) (category : string) (words : list word)
    (fuel : nat) (start_time score total : Z) : M (Z * Z) :=
  match fuel with
  | O => out_of_fuel
  | S fuel =>
      now ← time_time E;
      let elapsed := now - start_time in
      let remaining := duration - elapsed in
      if remaining <=? 0 then mret (score, total)
      else
        let total := total + 1 in
        p ← get_doc;
        w ← random_choices E words (map (weight p category) words);
        coin ← random_coin E;
        let prompt_text := if coin : bool then en w else de w in
        let correct_answer := if coin : bool then de w else en w in
        let field := λ v, if String.eqb correct_answer (de w) then de v else en v in
        let wrong_pool := map field (filter (λ v, field v ≠ correct_answer) words) in
        wrong_pool ← random_shuffle E wrong_pool;
        let choices := correct_answer :: take 3 wrong_pool in
        choices ← random_shuffle E choices;
        emit (Question prompt_text choices);;
        now ← time_time E;
        if duration <=? now - start_time then mret (score, total)
        else
          answer ← ask_typed E;
          now ← time_time E;
          if duration <=? now - start_time then mret (score, total)
          else
            let selected :=
              match answer with
              | NotANumber => ""
              | Number z => default "" (py_index choices (z - 1))
              end in
            let ok := String.eqb selected correct_answer in
            score_answer category w ok 5;;
            speed_loop E category words fuel start_time
              (if ok then score + 1 else score) total
  end.

(** The end of a speed round: the personal best and the final panel. *)
Definition speed_finish (score total : Z) : M unit :=
  p ← get_doc;
  let is_new_best := best_speed p <? score in
  (if is_new_best
   then put_doc (set_best_speed p score);; save_progress
   else (mret () : M unit));;
  emit (Report score total);;
  press_enter_to_continue.

Definition speed_round (E : env) (fuel : nat) (category : string)
    (words : list word) : M unit :=
  if len words <? 2 then
    emit (Say "[red]Not enough words for a speed round.[/red]");;
    press_enter_to_continue
  else
    emit Ready;;
    start_time ← time_time E;
    r ← speed_loop E category words fuel start_time 0 0;
    speed_finish r.1 r.2.


(** Events of a log that are writes of the progress document. *)
Definition saves (l : list event) : list progress :=
  omap (λ ev, match ev with Saved p => Some p | _ => None end) l.

(** Events of a log that put a question to the learner. *)
Definition is_question (ev : event) : bool :=
  match ev with
  | Question _ _ | Asked => true
  | _ => false
  end.

(** The document after one scored answer. *)
Definition scored (p : progress) (category : string) (w : word) (ok : bool)
    (award : Z) : progress :=
  if ok then set_xp (record_answer p category (de w) true) (xp p + award)
  else record_answer p category (de w) false.

(** ** Sample vocabulary *)

Definition zoo : list word :=
  [Word "Hund" "dog"; Word "Katze" "cat"; Word "Vogel" "bird";
   Word "Fisch" "fish"; Word "Maus" "mouse"].

(** A category of three words. *)
Definition pets : list word :=
  [Word "Hund" "dog"; Word "Katze" "cat"; Word "Maus" "mouse"].

(** Three German pronouns share one English rendering. *)
Definition pronouns : list word :=
  [Word "ich" "I"; Word "wir" "we"; Word "er" "he"; Word "du" "you";
   Word "Sie" "you"].

(** ** More on the mastery store *)

(** The text holds a colon. *)
Fixpoint has_colon (s : string) : bool :=
  match s with
  | EmptyString => false
  | String c s' => Ascii.eqb c ":" || has_colon s'
  end.

(** The category names of [CATEGORIES]. *)
Definition CATEGORIES : list string :=
  ["numbers"; "days"; "months"; "verbs"; "nouns";
   "adjectives"; "adverbs"; "phrases"; "colors"; "greetings"; "pronouns"].

(** The calls of a sequence that reach the record of [key] with the given
    verdict. *)
Definition calls_on (key : string) (verdict : bool)
    (calls : list (string * string * bool)) : Z :=
  len (filter (λ c, get_word_key c.1.1 c.1.2 = key ∧ c.2 = verdict) calls).

(** The same answer given [n] times in a row. *)
Definition record_repeat (p : progress) (category de_word : string)
    (is_correct : bool) (n : nat) : progress :=
  Nat.iter n (λ q, record_answer q category de_word is_correct) p.

(** ** More on normalisation *)

(** A code point that [normalize_german] can leave in its result: not an
    upper-case letter and none of the letters it rewrites. *)
Definition plain_char (c : ascii) : Prop :=
  lower_char c = c ∧ c ≠ u_uml ∧ c ≠ o_uml ∧ c ≠ a_uml ∧ c ≠ eszett.

(** A text function applied to a string. *)
Definition on_chars (f : list ascii → list ascii) (s : string) : string :=
  string_of_list_ascii (f (list_ascii_of_string s)).

(** The word typed on a keyboard without umlauts: u for ü, o for ö, a for ä,
    ss for ß. *)
Definition ascii_fallback (t : list ascii) : list ascii :=
  flat_map fold_diacritic t.

(** [plain_char] as a test. *)
Definition plain_charb (c : ascii) : bool :=
  Ascii.eqb (lower_char c) c && negb (Ascii.eqb c u_uml) && negb (Ascii.eqb c o_uml)
  && negb (Ascii.eqb c a_uml) && negb (Ascii.eqb c eszett).

(** ** More on the streak *)

(** The program started once on each day of the list, oldest first: [main]
    calls [update_streak] at every start. *)
Fixpoint play_days (days : list date) (p : progress) : option progress :=
  match days with
  | [] => Some p
  | d :: rest => p' ← update_streak d d p; play_days rest p'
  end.

(** Each day of the list is a valid date and the day after the one before
    it, [prev] being the day before the first. *)
Fixpoint consecutive (prev : date) (days : list date) : Prop :=
  match days with
  | [] => True
  | d :: rest => valid_date d ∧ yesterday d = Some prev ∧ consecutive d rest
  end.

(** ** Type-it mode and learn mode

    What the learner types at a free-text prompt is an oracle of its own:
    [inputs k] is the text read by the k-th prompt of the session. *)
Definition ask_text (inputs : nat → string) : M string := λ w,
  Done (inputs (prompts w))
       (World (doc w) (Asked :: log w) (rng w) (ticks w) (S (prompts w))).

(** One iteration of the [for] loop of [type_it_mode]; returns whether the
    typed text was accepted. *)
Definition type_question (inputs : nat → string) (category : string) (w : word)
    : M bool :=
  emit (Question (en w) []);;
  user_input ← ask_text inputs;
  let ok := String.eqb (normalize_german user_input) (normalize_german (de w)) in
  score_answer category w ok 15;;
  mret ok.

Fixpoint type_loop (inputs : nat → string) (category : string)
    (questions : list word) (score : Z) : M Z :=
  match questions with
  | [] => mret score
  | w :: rest =>
      ok ← type_question inputs category w;
      type_loop inputs category rest (if ok : bool then score + 1 else score)
  end.

Definition type_it_mode (E : env) (inputs : nat → string) (category : string)
    (words : list word) : M unit :=
  match words with
  | [] =>
      emit (Say "[red]No words in this category.[/red]");;
      press_enter_to_continue
  | _ =>
      let n_questions := Z.min 10 (len words) in
      questions ← weighted_sample E category words n_questions;
      score ← type_loop inputs category questions 0;
      emit (Report score n_questions);;
      press_enter_to_continue
  end.

(** [progress["words"].setdefault(key, {"mastery": 0, "correct": 0, "wrong": 0})]
    as learn mode does it on "next". *)
Definition touch (p : progress) (category de_word : string) : progress :=
  let key := get_word_key category de_word in
  match words p !! key with
  | Some _ => p
  | None => set_words p (<[key := new_entry]> (words p))
  end.

(** [(idx + 1) % len(ordered)] and [(idx - 1) % len(ordered)] *)
Definition next_card (n idx : Z) : Z := (idx + 1) mod n.
Definition prev_card (n idx : Z) : Z := (idx - 1) mod n.

(** [Prompt.ask(...).strip().lower()] *)
Definition ask_action (inputs : nat → string) : M string :=
  raw ← ask_text inputs;
  mret (on_chars (λ t, str_lower (str_strip t)) raw).

(** The [while True] loop of [learn_mode]: the card is printed, then its
    translation when revealed, then one action is read. *)
Fixpoint learn_loop (inputs : nat → string) (category : string)
    (ordered : list word) (fuel : nat) (idx : Z) (revealed : bool) : M unit :=
  match fuel with
  | O => out_of_fuel
  | S fuel =>
      match py_index ordered idx with
      | None => raise IndexError
      | Some w =>
          emit (Say (de w));;
          (if revealed then emit (Say (en w)) else (mret () : M unit));;
          action ← ask_action inputs;
          if String.eqb action "q" then mret ()
          else if String.eqb action "n" then
            p ← get_doc;
            put_doc (touch p category (de w));;
            learn_loop inputs category ordered fuel (next_card (len ordered) idx) false
          else if String.eqb action "p" then
            learn_loop inputs category ordered fuel (prev_card (len ordered) idx) false
          else
            learn_loop inputs category ordered fuel idx true
      end
  end.

Definition learn_mode (E : env) (inputs : nat → string) (fuel : nat)
    (category : string) (words : list word) : M unit :=
  match words with
  | [] =>
      emit (Say "[red]No words in this category.[/red]");;
      press_enter_to_continue
  | _ =>
      ordered ← weighted_sample E category words (len words);
      learn_loop inputs category ordered fuel 0 false
  end.

(** What no practice mode may do to the progress document. *)
Definition grows (W W' : world) : Prop :=
  xp (doc W) <= xp (doc W') ∧
  best_speed (doc W) <= best_speed (doc W') ∧
  streak (doc W') = streak (doc W) ∧
  last_played (doc W') = last_played (doc W) ∧
  (mastery_bounded (doc W) → mastery_bounded (doc W')).

(** The learner who always types the German word asked for. *)
Definition sample_typist : nat → string :=
  λ k, match k with O => "hund" | 1%nat => " KATZE " | _ => "?" end.

(** The learner who turns three cards and leaves. *)
Definition sample_browser : nat → string :=
  λ k, match k with O => "" | 1%nat => "N" | 2%nat => " n" | 3%nat => "p" | _ => "q" end.

(** Two documents in which the learner stands the same: same xp, streak,
    date and personal best, and under every key the same record, a missing
    one counting as the fresh record. *)
Definition same_standing (p p' : progress) : Prop :=
  xp p' = xp p ∧ streak p' = streak p ∧ last_played p' = last_played p ∧
  best_speed p' = best_speed p ∧
  (∀ key, default new_entry (words p' !! key) = default new_entry (words p !! key)) ∧
  words_learned_count p' = words_learned_count p.

(** The action read at the k-th prompt. *)
Definition typed_action (inputs : nat → string) (k : nat) : string :=
  on_chars (λ t, str_lower (str_strip t)) (inputs k).

(** ** The answer of a speed-round item *)


(** ** All categories at once *)

(** A word of the merged list: the dictionary of the category file and its
    ["_category"] entry, when it has one. *)
Record tagged : Type := Tagged {
  entry_word : word;
  category_tag : option string
}.

(** The merge of [main]: every category of [CATEGORIES] in turn, each word
    copied and tagged with the category it comes from. *)
Definition merge_all (vocab : gmap string (list word)) : list tagged :=
  flat_map (λ cat, map (λ w, Tagged w (Some cat)) (default [] (vocab !! cat)))
    CATEGORIES.

(** [word.get("_category", cat_map.get(word["de"], "all"))] *)
Definition _get_cat (tw : tagged) (cat_map : gmap string string) : string :=
  match category_tag tw with
  | Some c => c
  | None => default "all" (cat_map !! de (entry_word tw))
  end.

(** The draw loop of [_quiz_all] and [_type_all]: the loop of
    [weighted_sample] again, with nothing after it. *)
Fixpoint draw_loop (E : env) (words : list tagged) (n : Z) (fuel : nat)
    (attempts : Z) (chosen_indices : gset nat) (questions : list tagged)
    : M (gset nat * list tagged) :=
  if (len questions <? n) && (attempts <? n * 20) then
    match fuel with
    | O => out_of_fuel
    | S fuel =>
        idx ← random_index E (length words);
        if decide (idx ∈ chosen_indices)
        then draw_loop E words n fuel (attempts + 1) chosen_indices questions
        else
          match words !! idx with
          | None => raise IndexError
          | Some w =>
              draw_loop E words n fuel (attempts + 1)
                ({[idx]} ∪ chosen_indices) (questions ++ [w])
          end
    end
  else mret (chosen_indices, questions).

(** The choices of one question of [_quiz_all]: no padding, no repair. *)
Definition quiz_all_choices (E : env) (field : word → string)
    (words : list tagged) (correct_answer : string) : M (list string) :=
  let wrong_pool :=
    map (λ tw, field (entry_word tw))
        (filter (λ tw, field (entry_word tw) ≠ correct_answer) words) in
  wrong_pool ← random_shuffle E wrong_pool;
  let choices := correct_answer :: take 3 wrong_pool in
  random_shuffle E choices.

Definition quiz_all_question (E : env) (words : list tagged)
    (cat_map : gmap string string) (qi : Z) (tw : tagged) : M bool :=
  let cat := _get_cat tw cat_map in
  let w := entry_word tw in
  let prompt_text := if qi mod 2 =? 1 then en w else de w in
  let correct_answer := if qi mod 2 =? 1 then de w else en w in
  choices ← quiz_all_choices E (if qi mod 2 =? 1 then de else en) words correct_answer;
  emit (Question prompt_text choices);;
  answer ← ask_pick E (length choices);
  match py_index choices (Z.of_nat answer - 1) with
  | None => raise IndexError
  | Some selected =>
      let ok := String.eqb selected correct_answer in
      score_answer cat w ok 10;;
      mret ok
  end.

Fixpoint quiz_all_loop (E : env) (words : list tagged)
    (cat_map : gmap string string) (qi : Z) (questions : list tagged) (score : Z)
    : M Z :=
  match questions with
  | [] => mret score
  | tw :: rest =>
      ok ← quiz_all_question E words cat_map qi tw;
      quiz_all_loop E words cat_map (qi + 1) rest (if ok : bool then score + 1 else score)
  end.

Definition _quiz_all (E : env) (words : list tagged) (cat_map : gmap string string)
    : M unit :=
  if len words <? 2 then
    emit (Say "[red]Not enough words for a quiz.[/red]");;
    press_enter_to_continue
  else
    p ← get_doc;
    let w_weights :=
      map (λ tw, 5 - get_mastery p (_get_cat tw cat_map) (de (entry_word tw)) + 1) words in
    let total_w := sum w_weights in
    if total_w =? 0 then raise ZeroDivisionError
    else
      let n_questions := Z.min 10 (len words) in
      r ← draw_loop E words n_questions (Z.to_nat (n_questions * 20)) 0 ∅ [];
      score ← quiz_all_loop E words cat_map 1 r.2 0;
      emit (Report score n_questions);;
      press_enter_to_continue.

(** A small vocabulary for the examples. *)
Definition sample_vocab : gmap string (list word) :=
  {[ "colors" := [Word "rot" "red"; Word "blau" "blue"];
     "days" := [Word "Montag" "Monday"];
     "pets" := [Word "Hund" "dog"] ]}.

(** ** The mode loop of a category *)

(** [mode_map.get(choice, "__invalid__")]: [None] is "back". *)
Definition mode_menu (inputs : nat → string) (category_label : string)
    : M (option string) :=
  emit (Say category_label);;
  choice ← ask_action inputs;
  mret (if String.eqb choice "1" then Some "learn"
        else if String.eqb choice "2" then Some "quiz"
        else if String.eqb choice "3" then Some "type"
        else if String.eqb choice "4" then Some "speed"
        else if String.eqb choice "b" then None
        else Some "__invalid__").

(** The [while True] loop of [play_category]. *)
Fixpoint play_category (E : env) (inputs : nat → string) (fuel : nat)
    (category : string) (words : list word) (label : string) : M unit :=
  match fuel with
  | O => out_of_fuel
  | S fuel =>
      mode ← mode_menu inputs label;
      match mode with
      | None => mret ()
      | Some mode =>
          if String.eqb mode "__invalid__" then
            play_category E inputs fuel category words label
          else
            (if String.eqb mode "learn" then learn_mode E inputs fuel category words
             else if String.eqb mode "quiz" then quiz_mode E category words
             else if String.eqb mode "type" then type_it_mode E inputs category words
             else if String.eqb mode "speed" then speed_round E fuel category words
             else (mret () : M unit));;
            play_category E inputs fuel category words label
      end
  end.

(** The learner who takes a quiz of five questions, mistypes a choice at
    the menu, and goes back. *)
Definition sample_visitor : nat → string :=
  λ k, match k with O => "2" | 6%nat => "x" | _ => "B" end.
(** * Theorems *)

(** ** The mastery store *)

Section MasteryStore.
Implicit Types (p : progress) (category de_word : string).

Lemma words_record_answer p category de_word b :
  words (record_answer p category de_word b) =
  <[get_word_key category de_word :=
      if b
      then Entry (Z.min (mastery (entry_of p category de_word) + 1) 5)
                 (correct (entry_of p category de_word) + 1)
                 (wrong (entry_of p category de_word))
      else Entry (Z.max (mastery (entry_of p category de_word) - 1) 0)
                 (correct (entry_of p category de_word))
                 (wrong (entry_of p category de_word) + 1)]> (words p).
Proof. unfold record_answer, entry_of. by destruct b. Qed.

Lemma get_mastery_entry_of p category de_word :
  get_mastery p category de_word = mastery (entry_of p category de_word).
Proof.
  unfold get_mastery, entry_of.
  by destruct (words p !! get_word_key category de_word).
Qed.

Lemma entry_of_record_answer p category de_word b :
  entry_of (record_answer p category de_word b) category de_word =
  let e := entry_of p category de_word in
  if b then Entry (Z.min (mastery e + 1) 5) (correct e + 1) (wrong e)
  else Entry (Z.max (mastery e - 1) 0) (correct e) (wrong e + 1).
Proof.
  unfold entry_of at 1. rewrite words_record_answer, lookup_insert_eq.
  by destruct b.
Qed.

Lemma record_answer_other p category de_word b k :
  k ≠ get_word_key category de_word →
  words (record_answer p category de_word b) !! k = words p !! k.
Proof. intros Hk. rewrite words_record_answer. by rewrite lookup_insert_ne. Qed.

Lemma record_answer_fields p category de_word b :
  xp (record_answer p category de_word b) = xp p ∧
  streak (record_answer p category de_word b) = streak p ∧
  last_played (record_answer p category de_word b) = last_played p ∧
  best_speed (record_answer p category de_word b) = best_speed p.
Proof. done. Qed.

Lemma get_mastery_bounded p category de_word :
  mastery_bounded p → 0 <= get_mastery p category de_word <= 5.
Proof.
  intros Hp. unfold get_mastery.
  destruct (words p !! _) as [e|] eqn:He; [by apply (Hp _ _ He)|lia].
Qed.

Lemma record_answer_bounded p category de_word b :
  mastery_bounded p → mastery_bounded (record_answer p category de_word b).
Proof.
  intros Hp k e. rewrite words_record_answer.
  pose proof (get_mastery_bounded p category de_word Hp) as Hm.
  rewrite get_mastery_entry_of in Hm.
  destruct (decide (get_word_key category de_word = k)) as [<-|Hne].
  - rewrite lookup_insert_eq. intros [= <-]. destruct b; simpl; lia.
  - rewrite lookup_insert_ne by done. apply Hp.
Qed.

Lemma record_answers_bounded calls : ∀ p,
  mastery_bounded p → mastery_bounded (record_answers p calls).
Proof.
  induction calls as [|[[c w] b] calls IH]; intros p Hp; [done|].
  apply IH. by apply record_answer_bounded.
Qed.

Lemma fresh_progress_bounded : mastery_bounded fresh_progress.
Proof. apply map_Forall_empty. Qed.

(** C1.  Whatever the stored mastery [m] of a (category, word) pair,
    [record_answer] with a correct answer leaves it at [min (m+1) 5] and
    adds one to the correct counter, with a wrong answer leaves it at
    [max (m-1) 0] and adds one to the wrong counter; a pair with no record
    starts from mastery 0 and zero counters.  A store whose mastery values
    lie in [0,5] keeps them there under any sequence of calls. *)
Theorem record_answer_mastery_bounded p category de_word calls :
  mastery_bounded p →
  let m := get_mastery p category de_word in
  let e := entry_of p category de_word in
  let hit := record_answer p category de_word true in
  let miss := record_answer p category de_word false in
  (0 <= m <= 5) ∧
  (words p !! get_word_key category de_word = None → e = Entry 0 0 0) ∧
  (get_mastery hit category de_word = Z.min (m + 1) 5 ∧
   entry_of hit category de_word = Entry (Z.min (m + 1) 5) (correct e + 1) (wrong e)) ∧
  (get_mastery miss category de_word = Z.max (m - 1) 0 ∧
   entry_of miss category de_word = Entry (Z.max (m - 1) 0) (correct e) (wrong e + 1)) ∧
  mastery_bounded (record_answers p calls).
Proof.
  intros Hp m e hit miss. subst m hit miss.
  pose proof (get_mastery_bounded p category de_word Hp) as Hm.
  rewrite !get_mastery_entry_of, !entry_of_record_answer in *. simpl. fold e.
  split; [exact Hm|]. split.
  { intros Hn. subst e. unfold entry_of. by rewrite Hn. }
  split; [done|]. split; [done|]. by apply record_answers_bounded.
Qed.

Lemma record_answer_mastery_bounded_witness :
  mastery_bounded fresh_progress ∧
  get_mastery (record_answer fresh_progress "verbs" "gehen" true) "verbs" "gehen" = 1.
Proof.
  split; [apply fresh_progress_bounded|].
  pose proof (record_answer_mastery_bounded fresh_progress "verbs" "gehen" []
                fresh_progress_bounded) as H.
  simpl in H. destruct H as (_ & _ & [H _] & _). exact H.
Defined.
End MasteryStore.

(** ** Shuffling and the random oracles *)

Section Shuffle.
Context {A : Type}.
Implicit Types (l : list A) (σ : list nat).

Lemma omap_lookup_cons x l (s : list nat) :
  omap (λ i, (x :: l) !! i) (S <$> s) = omap (λ i, l !! i) s.
Proof. induction s as [|i s IHs]; [done|]. csimpl. by rewrite IHs. Qed.

Lemma omap_lookup_seq l : omap (λ i, l !! i) (seq 0 (length l)) = l.
Proof.
  induction l as [|x l IH]; [done|].
  csimpl. rewrite <- fmap_S_seq, omap_lookup_cons. by f_equal.
Qed.

Lemma shuffle_by_perm σ l :
  Permutation σ (seq 0 (length l)) → Permutation (shuffle_by σ l) l.
Proof.
  intros Hσ. unfold shuffle_by. rewrite Hσ. by rewrite omap_lookup_seq.
Qed.

Lemma shuffle_by_length σ l :
  Permutation σ (seq 0 (length l)) → length (shuffle_by σ l) = length l.
Proof. intros Hσ. by rewrite (shuffle_by_perm σ l Hσ). Qed.

Lemma shuffle_by_fmap {B} (f : A → B) σ l :
  shuffle_by σ (f <$> l) = f <$> shuffle_by σ l.
Proof.
  unfold shuffle_by. induction σ as [|i σ IH]; [done|].
  csimpl. rewrite list_lookup_fmap, IH. by destruct (l !! i).
Qed.
End Shuffle.

(** ** The weighted sampler *)

Section Sampler.
Variable E : env.
Hypothesis E_sound : env_sound E.

Lemma picked_at_snoc words idxs res i w :
  picked_at words idxs res → words !! i = Some w →
  picked_at words (idxs ++ [i]) (res ++ [w]).
Proof. intros H Hi. apply Forall2_app; [done|]. by constructor. Qed.

Lemma sum_from (l : list Z) : ∀ a, fold_left Z.add l a = a + sum l.
Proof.
  unfold sum. induction l as [|x l IH]; intros a; simpl; [lia|].
  rewrite IH, (IH (0 + x)). lia.
Qed.

Lemma sum_cons x (l : list Z) : sum (x :: l) = x + sum l.
Proof. unfold sum at 1. simpl. by rewrite sum_from. Qed.

Lemma sum_pos (l : list Z) : l ≠ [] → Forall (λ x, 1 <= x) l → 1 <= sum l.
Proof.
  intros Hne Hl. destruct Hl as [|x l Hx Hl]; [done|].
  rewrite sum_cons. assert (0 <= sum l); [|lia].
  clear -Hl. induction Hl as [|y l Hy Hl IH]; [done|].
  rewrite sum_cons. lia.
Qed.

Lemma weight_pos p category w : mastery_bounded p → 1 <= weight p category w <= 6.
Proof.
  intros Hp. unfold weight.
  pose proof (get_mastery_bounded p category (de w) Hp). lia.
Qed.

(** The draw loop keeps the chosen positions distinct, never raises and
    never runs out of fuel when started with the fuel of [weighted_sample]. *)
Lemma sample_loop_spec words n : words ≠ [] →
  ∀ fuel attempts chosen result idxs w,
    n * 20 - attempts <= Z.of_nat fuel →
    NoDup idxs → (∀ i, i ∈ chosen ↔ i ∈ idxs) →
    picked_at words idxs result → len result <= n →
    ∃ chosen' result' idxs' w',
      sample_loop E words n fuel attempts chosen result w = Done (chosen', result') w' ∧
      doc w' = doc w ∧ log w' = log w ∧ prompts w' = prompts w ∧ ticks w' = ticks w ∧
      NoDup idxs' ∧ (∀ i, i ∈ chosen' ↔ i ∈ idxs') ∧
      picked_at words idxs' result' ∧ len result' <= n.
Proof.
  intros Hne. destruct E_sound as (Hidx & _ & _).
  induction fuel as [|fuel IH]; intros attempts chosen result idxs w Hf Hnd Hch Hpick Hlen.
  - simpl. destruct (len result <? n) eqn:H1; simpl;
      [destruct (attempts <? n * 20) eqn:H2; [lia|]|]; by eexists _, _, idxs, _.
  - simpl. destruct (len result <? n) eqn:H1; simpl;
      [destruct (attempts <? n * 20) eqn:H2|]; try by eexists _, _, idxs, _.
    unfold mbind, M_bind, random_index. simpl.
    set (idx := rand_index E (rng w) (length words)).
    set (w1 := World _ _ _ _ _).
    assert (idx < length words)%nat as Hlt.
    { apply Hidx. destruct words; [done|simpl; lia]. }
    destruct (decide (idx ∈ chosen)) as [Hin|Hnin].
    + eapply (IH (attempts + 1) chosen result idxs w1) in Hnd as (c' & r' & i' & w' & ? & ?);
        [|lia|done..]. by eexists c', r', i', w'.
    + destruct (lookup_lt_is_Some_2 words idx Hlt) as [wd Hwd]. rewrite Hwd.
      edestruct (IH (attempts + 1) ({[idx]} ∪ chosen) (result ++ [wd]) (idxs ++ [idx]) w1)
        as (c' & r' & i' & w' & ? & ?).
      * lia.
      * apply NoDup_app. split_and!; [done| |apply NoDup_singleton].
        intros x Hx ->%list_elem_of_singleton. by apply Hnin, Hch.
      * intros i. rewrite elem_of_union, elem_of_singleton, elem_of_app,
          list_elem_of_singleton, Hch. tauto.
      * by apply picked_at_snoc.
      * unfold len in *. rewrite length_app. simpl. lia.
      * by eexists c', r', i', w'.
Qed.

Lemma picked_at_pairs words (pairs : list (nat * word)) :
  (∀ i w, (i, w) ∈ pairs → words !! i = Some w) →
  picked_at words pairs.*1 pairs.*2.
Proof.
  induction pairs as [|[i w] pairs IH]; intros H; [constructor|].
  csimpl. constructor.
  - apply H. left.
  - apply IH. intros j v Hj. apply H. by right.
Qed.

(** The words left for the padding, with their positions. *)
Lemma remaining_words_spec words chosen idxs :
  NoDup idxs → (∀ i, i ∈ chosen ↔ i ∈ idxs) →
  ∃ pairs : list (nat * word),
    remaining_words words chosen = pairs.*2 ∧ NoDup pairs.*1 ∧
    (∀ i w, (i, w) ∈ pairs → words !! i = Some w ∧ i ∉ chosen) ∧
    (length words ≤ length pairs + length idxs)%nat.
Proof.
  intros Hnd Hch.
  exists (filter (λ iw, iw.1 ∉ chosen) (imap pair words)).
  assert ((imap pair words).*1 = seq 0 (length words)) as Hfst.
  { rewrite fmap_imap. rewrite <- (list_fmap_id (seq 0 _)).
    rewrite <- (imap_seq_0 words id). by apply imap_ext. }
  split_and!; [done| | |].
  - apply (sublist_NoDup _ (seq 0 (length words))); [apply NoDup_seq|].
    rewrite <- Hfst. apply fmap_sublist, sublist_filter.
  - intros i w [Hi Hin]%list_elem_of_filter. split; [|done].
    apply elem_of_lookup_imap in Hin as (j & v & [= -> ->] & Hj). done.
  - pose proof (filter_app_complement (λ iw : nat * word, iw.1 ∉ chosen)
                  (imap pair words)) as Hperm.
    apply Permutation_length in Hperm.
    rewrite length_app, length_imap in Hperm.
    assert (length (filter (λ iw : nat * word, ¬ (iw.1 ∉ chosen)) (imap pair words))
              ≤ length idxs)%nat; [|lia].
    rewrite <- (length_fmap fst). apply submseteq_length, NoDup_submseteq.
    + apply (sublist_NoDup _ (seq 0 (length words))); [apply NoDup_seq|].
      rewrite <- Hfst. apply fmap_sublist, sublist_filter.
    + intros i [[j v] [-> [Hj _]%list_elem_of_filter]]%list_elem_of_fmap.
      simpl in *. apply Hch. by apply dec_stable.
Qed.

(** The sampler returns, with the entries it promises. *)
Lemma weighted_sample_spec category words n w :
  words ≠ [] → mastery_bounded (doc w) → 0 <= n →
  ∃ res idxs w',
    weighted_sample E category words n w = Done res w' ∧
    len res = Z.min n (len words) ∧
    NoDup idxs ∧ picked_at words idxs res ∧
    doc w' = doc w ∧ log w' = log w.
Proof.
  intros Hne Hp Hn. unfold weighted_sample.
  destruct words as [|w0 ws] eqn:Hw; [done|]. rewrite <- Hw in *. clear Hw w0 ws.
  unfold mbind at 1, M_bind at 1, get_doc. simpl.
  assert (1 <= sum (map (weight (doc w) category) words)) as Htot.
  { apply sum_pos; [by destruct words|].
    apply Forall_map, Forall_forall. intros x _. by apply weight_pos. }
  destruct (Z.eqb_spec (sum (map (weight (doc w) category) words)) 0) as [?|_]; [lia|].
  set (n' := Z.min n (len words)).
  assert (0 <= n' <= len words) as Hn' by (unfold n', len; lia).
  destruct (sample_loop_spec words n' Hne (Z.to_nat (n' * 20)) 0 ∅ [] [] w)
    as (chosen & result & idxs & w1 & Hrun & Hdoc & Hlog & Hpr & Htk & Hnd & Hch & Hpick & Hlen);
    [lia|constructor|by intros i; rewrite elem_of_empty, elem_of_nil|constructor|unfold len; simpl; lia|].
  unfold mbind, M_bind. rewrite Hrun. simpl.
  pose proof (Forall2_length _ _ _ Hpick) as Hsame.
  destruct (Z.ltb_spec (len result) n') as [Hlt|Hge].
  - destruct (remaining_words_spec words chosen idxs Hnd Hch)
      as (pairs & -> & Hpnd & Hpin & Hplen).
    unfold random_shuffle, mbind, M_bind, random_perm, mret, M_ret. simpl.
    rewrite length_fmap, shuffle_by_fmap, <- fmap_take.
    set (σ := rand_perm E (rng w1) (length pairs)).
    assert (Permutation (shuffle_by σ pairs) pairs) as Hsh.
    { apply shuffle_by_perm. destruct E_sound as (_ & Hperm & _). apply Hperm. }
    set (tk := take (Z.to_nat (n' - len result)) (shuffle_by σ pairs)).
    assert (tk ⊆ pairs) as Hsub.
    { intros x Hx. rewrite <- Hsh. eapply elem_of_sublist; [exact Hx|apply sublist_take]. }
    eexists _, (idxs ++ tk.*1), _. split; [done|]. simpl. split_and!; [| | |done..].
    + unfold len in *. rewrite length_app, length_fmap.
      unfold tk. rewrite length_take, (Permutation_length Hsh). lia.
    + apply NoDup_app. split_and!; [done| |].
      * intros i Hi [[j v] [-> Hjv]]%list_elem_of_fmap.
        apply Hsub, Hpin in Hjv as [_ Hj]. by apply Hj, Hch.
      * apply (sublist_NoDup _ ((shuffle_by σ pairs).*1)).
        -- by rewrite Hsh.
        -- apply fmap_sublist, sublist_take.
    + apply Forall2_app; [done|]. apply picked_at_pairs.
      intros i v Hiv. by apply Hsub, Hpin in Hiv as [? _].
  - eexists _, idxs, _. split; [done|]. split_and!; [lia|done..].
Qed.

(** C2.  For a non-empty word list, a store with mastery values in [0,5],
    [n >= 0] and any outcome of the random draws, [weighted_sample] returns
    normally with exactly [min n (len words)] entries taken from pairwise
    distinct positions of [words]; it leaves the progress document alone. *)
Theorem weighted_sample_distinct category words n w :
words ≠ [] → mastery_bounded (doc w) → 0 <= n →
∃ res idxs w',
  weighted_sample E category words n w = Done res w' ∧
  len res = Z.min n (len words) ∧
  NoDup idxs ∧ picked_at words idxs res ∧
  doc w' = doc w ∧ log w' = log w.
Proof. apply weighted_sample_spec. Qed.
End Sampler.

Lemma demo_env_sound : env_sound demo_env.
Proof.
  split_and!; simpl.
  - intros k n Hn. apply Nat.mod_upper_bound. lia.
  - intros _ n. symmetry. apply Permutation_rev.
  - intros _ n Hn. lia.
Qed.

Lemma stuck_env_sound : env_sound stuck_env.
Proof.
  split_and!; simpl.
  - intros k n Hn. lia.
  - intros _ n. symmetry. apply Permutation_rev.
  - intros _ n Hn. lia.
Qed.

Example weighted_sample_zoo :
  ∃ w', weighted_sample demo_env "animals" zoo 5 (world0 fresh_progress) =
        Done [Word "Hund" "dog"; Word "Katze" "cat"; Word "Vogel" "bird";
              Word "Fisch" "fish"; Word "Maus" "mouse"] w'.
Proof. eexists. vm_compute. reflexivity. Qed.

(** With draws that never leave position 0 the loop gives up after 100
    attempts and the other four words come from the shuffle. *)
Example weighted_sample_zoo_padded :
  ∃ w', weighted_sample stuck_env "animals" zoo 5 (world0 fresh_progress) =
        Done [Word "Hund" "dog"; Word "Maus" "mouse"; Word "Fisch" "fish";
              Word "Vogel" "bird"; Word "Katze" "cat"] w' ∧ rng w' = 101%nat.
Proof. eexists. vm_compute. split; reflexivity. Qed.

Lemma weighted_sample_distinct_witness :
  ∃ res idxs w',
    weighted_sample demo_env "animals" zoo 5 (world0 fresh_progress) = Done res w' ∧
    len res = Z.min 5 (len zoo) ∧ NoDup idxs ∧ picked_at zoo idxs res ∧
    doc w' = fresh_progress ∧ log w' = [].
Proof.
  apply (weighted_sample_distinct demo_env demo_env_sound "animals" zoo 5
           (world0 fresh_progress)); [done|apply fresh_progress_bounded|lia].
Defined.

(** ** Normalisation of typed answers *)

Section Normalize.
Implicit Types (c : ascii) (t : list ascii).

(** Case analysis over the 256 code points. *)
Ltac each_char c := destruct c as [[] [] [] [] [] [] [] []]; vm_compute; try done.

Lemma isspace_lower c : isspace (lower_char c) = isspace c.
Proof. each_char c. Qed.

Lemma lstrip_lower t : lstrip (str_lower t) = str_lower (lstrip t).
Proof.
  induction t as [|c t IH]; [done|].
  simpl. rewrite isspace_lower. by destruct (isspace c).
Qed.

Lemma str_lower_rev t : rev (str_lower t) = str_lower (rev t).
Proof. unfold str_lower. by rewrite map_rev. Qed.

Lemma str_strip_lower t : str_strip (str_lower t) = str_lower (str_strip t).
Proof.
  unfold str_strip.
  by rewrite lstrip_lower, str_lower_rev, lstrip_lower, str_lower_rev.
Qed.

Lemma flat_map_flat_map {A B C} (f : A → list B) (g : B → list C) (l : list A) :
  flat_map g (flat_map f l) = flat_map (λ x, flat_map g (f x)) l.
Proof.
  induction l as [|x l IH]; [done|].
  simpl. by rewrite flat_map_app, IH.
Qed.

Lemma flat_map_map {A B C} (f : A → B) (g : B → list C) (l : list A) :
  flat_map g (map f l) = flat_map (λ x, g (f x)) l.
Proof. induction l as [|x l IH]; [done|]. simpl. by rewrite IH. Qed.

Lemma flat_map_rev {A B} (f : A → list B) (l : list A) :
  rev (flat_map f l) = flat_map (λ x, rev (f x)) (rev l).
Proof.
  induction l as [|x l IH]; [done|].
  simpl. rewrite rev_app_distr, IH, flat_map_app. simpl. by rewrite app_nil_r.
Qed.

Lemma replace_umlauts_app t1 t2 :
  replace_umlauts (t1 ++ t2) = replace_umlauts t1 ++ replace_umlauts t2.
Proof. unfold replace_umlauts, str_replace. by rewrite !flat_map_app. Qed.

Lemma replace_umlauts_flat_map t :
  replace_umlauts t = flat_map (λ c, replace_umlauts [c]) t.
Proof.
  induction t as [|c t IH]; [done|].
  cbn [flat_map]. rewrite <- IH. apply (replace_umlauts_app [c] t).
Qed.

Lemma replace_umlauts_lower c :
  replace_umlauts [lower_char c] = fold_diacritic (lower_char c).
Proof. each_char c. Qed.

(** The source, as one pass over the trimmed text. *)
Lemma normalize_chars_flat_map t :
  normalize_chars t =
  flat_map (λ c, fold_diacritic (lower_char c)) (str_strip t).
Proof.
  unfold normalize_chars. rewrite str_strip_lower, replace_umlauts_flat_map.
  unfold str_lower. rewrite flat_map_map.
  apply flat_map_ext. intros c. apply replace_umlauts_lower.
Qed.

Lemma normalize_german_spec text : normalize_german text = normalize_spec text.
Proof.
  unfold normalize_german, normalize_spec.
  rewrite normalize_chars_flat_map. unfold str_lower. by rewrite flat_map_map.
Qed.

(** *** Trimmed text *)

Lemma lstrip_clean t : starts_clean t → lstrip t = t.
Proof. destruct t as [|c t]; [done|]. simpl. by intros ->. Qed.

Lemma lstrip_length t : (length (lstrip t) ≤ length t)%nat.
Proof.
  induction t as [|c t IH]; [done|]. simpl.
  destruct (isspace c); simpl; lia.
Qed.

Lemma lstrip_starts_clean t : starts_clean (lstrip t).
Proof.
  induction t as [|c t IH]; [done|]. simpl.
  by destruct (isspace c) eqn:Hc.
Qed.

Lemma lstrip_suffix t : ∃ pre, t = pre ++ lstrip t.
Proof.
  induction t as [|c t [pre IH]]; [by exists []|]. simpl.
  destruct (isspace c).
  - exists (c :: pre). simpl. by f_equal.
  - by exists [].
Qed.

Lemma starts_clean_prefix t1 t2 : t1 ≠ [] → starts_clean (t1 ++ t2) → starts_clean t1.
Proof. by destruct t1. Qed.

Lemma str_strip_trimmed t : trimmed (str_strip t).
Proof.
  unfold trimmed, str_strip. rewrite rev_involutive.
  split; [|apply lstrip_starts_clean].
  destruct (lstrip_suffix (rev (lstrip t))) as [pre Hpre].
  set (b := lstrip (rev (lstrip t))) in *.
  destruct (decide (rev b = [])) as [->|Hne]; [done|].
  apply (starts_clean_prefix _ (rev pre)); [done|].
  rewrite <- rev_app_distr, <- Hpre, rev_involutive. apply lstrip_starts_clean.
Qed.

Lemma str_strip_fixed t : trimmed t → str_strip t = t.
Proof.
  intros [H1 H2]. unfold str_strip.
  by rewrite (lstrip_clean t), (lstrip_clean (rev t)), rev_involutive.
Qed.

Lemma flat_map_starts_clean (f : ascii → list ascii) t :
  (∀ c, isspace c = false → f c ≠ [] ∧ starts_clean (f c)) →
  starts_clean t → starts_clean (flat_map f t).
Proof.
  intros Hf. destruct t as [|c t]; [done|]. simpl. intros Hc.
  destruct (Hf c Hc) as [Hne Hcl]. by destruct (f c).
Qed.

Lemma fold_lower_front c :
  isspace c = false →
  fold_diacritic (lower_char c) ≠ [] ∧ starts_clean (fold_diacritic (lower_char c)).
Proof. each_char c. Qed.

Lemma fold_lower_back c :
  isspace c = false →
  rev (fold_diacritic (lower_char c)) ≠ [] ∧
  starts_clean (rev (fold_diacritic (lower_char c))).
Proof. each_char c. Qed.

Lemma fold_lower_twice c :
  flat_map (λ c, fold_diacritic (lower_char c)) (fold_diacritic (lower_char c)) =
  fold_diacritic (lower_char c).
Proof. each_char c. Qed.

Lemma fold_lower_trimmed t :
  trimmed t → trimmed (flat_map (λ c, fold_diacritic (lower_char c)) t).
Proof.
  intros [H1 H2]. split.
  - by apply flat_map_starts_clean; [apply fold_lower_front|].
  - rewrite flat_map_rev.
    by apply (flat_map_starts_clean (λ c, rev (fold_diacritic (lower_char c))));
      [apply fold_lower_back|].
Qed.

Lemma normalize_chars_idempotent t :
  normalize_chars (normalize_chars t) = normalize_chars t.
Proof.
  rewrite !normalize_chars_flat_map.
  rewrite (str_strip_fixed (flat_map _ _))
    by apply fold_lower_trimmed, str_strip_trimmed.
  rewrite flat_map_flat_map. apply flat_map_ext. intros c. apply fold_lower_twice.
Qed.

(** C9.  [normalize_german] is idempotent, so normalising both sides
    once more never changes the verdict of the comparison. *)
Theorem normalize_german_idempotent (s a b : string) :
  normalize_german (normalize_german s) = normalize_german s ∧
  matches (normalize_german a) (normalize_german b) = matches a b.
Proof.
  assert (∀ x, normalize_german (normalize_german x) = normalize_german x) as Hid.
  { intros x. unfold normalize_german.
    by rewrite list_ascii_of_string_of_list_ascii, normalize_chars_idempotent. }
  split; [apply Hid|]. unfold matches. by rewrite !Hid.
Qed.

(** The first sample pair of the specification: the two sides normalise
    to the same text, so the comparison of [type_it_mode] holds. *)
Lemma normalize_Mueller_MULLER_match : matches Mueller_uml "MULLER" = true.
Proof. vm_compute. reflexivity. Qed.

(** C3.  [normalize_german] lowercases, trims and rewrites
    ü→u, ö→o, ä→a, ß→ss and nothing else; ["Müller"] and ["MULLER"]
    normalise to the same text, ["Müller"] and ["Mueller"] do not,
    ["für"] and ["fuer"] do not, ["für"] and ["fur"] do. *)
Theorem normalize_german_substitutions :
  (∀ text, normalize_german text = normalize_spec text) ∧
  matches Mueller_uml "MULLER" = true ∧
  matches Mueller_uml "Mueller" = false ∧
  matches fuer_uml "fuer" = false ∧
  matches fuer_uml "fur" = true.
Proof. split; [apply normalize_german_spec|]. by vm_compute. Qed.

Example normalize_Strasse :
  normalize_german (String " " (String "S" ("tra" +:+ String eszett "e  "))) = "strasse".
Proof. vm_compute. reflexivity. Qed.
End Normalize.

(** ** Learned words *)

Section Aggregate.
Implicit Types (p : progress).

Lemma count_ones_length {A} (xs : list A) : count_ones xs = Z.of_nat (length xs).
Proof.
  unfold count_ones. induction xs as [|x xs IH]; [done|].
  cbn [map length]. rewrite sum_cons, IH. lia.
Qed.

Lemma length_filter_values (m : gmap string entry) :
  length (filter (λ e, 3 <= mastery e) (map_to_list m).*2) =
  size (filter (λ ke : string * entry, 3 <= mastery ke.2) m).
Proof.
  induction m as [|k e m Hk Hfirst IH] using map_first_key_ind; [done|].
  rewrite map_to_list_insert_first_key by done. csimpl.
  destruct (decide (3 <= mastery e)) as [He|He].
  - rewrite filter_cons_True by done.
    rewrite map_filter_insert_True by done.
    rewrite map_size_insert_None by (by apply map_lookup_filter_None_2; left).
    simpl. by rewrite IH.
  - rewrite filter_cons_False by done.
    rewrite map_filter_insert_not' by (done || by rewrite Hk).
    apply IH.
Qed.

Lemma length_filter_le {A} (P : A → Prop) `{∀ x, Decision (P x)} (l : list A) :
  (length (filter P l) ≤ length l)%nat.
Proof. apply length_filter. Qed.

(** C10.  [words_learned_count] is the number of stored records whose
    mastery is at least 3; [category_completion] is 0 for an empty word
    list and otherwise the number of words of the list whose mastery is at
    least 3 divided by the length of the list, a value between 0 and 1. *)
Theorem learned_means_mastery_three p category (w : word) (ws : list word) :
  (learned p category w ↔ 3 <= get_mastery p category (de w)) ∧
  words_learned_count p = Z.of_nat (size (learned_records p)) ∧
  (category_completion p category [] == 0)%Q ∧
  (category_completion p category (w :: ws) ==
     Z.of_nat (length (filter (learned p category) (w :: ws)))
       # Pos.of_nat (length (w :: ws)))%Q ∧
  (0 <= category_completion p category (w :: ws) <= 1)%Q.
Proof.
  split; [done|]. split.
  { unfold words_learned_count, words_values, learned_records.
    by rewrite count_ones_length, length_filter_values. }
  split; [done|].
  assert (category_completion p category (w :: ws) ==
            Z.of_nat (length (filter (learned p category) (w :: ws)))
              # Pos.of_nat (length (w :: ws)))%Q as Heq.
  { unfold category_completion. rewrite count_ones_length. unfold len.
    set (k := length (filter _ _)). set (n := length (w :: ws)).
    assert (0 < n)%nat by (unfold n; simpl; lia).
    rewrite Qmake_Qdiv. f_equiv.
    unfold inject_Z. f_equiv. lia. }
  split; [exact Heq|]. rewrite Heq.
  pose proof (length_filter_le (learned p category) (w :: ws)) as Hle.
  set (k := length (filter _ _)) in *. set (n := length (w :: ws)) in *.
  assert (0 < n)%nat by (unfold n; simpl; lia).
  unfold Qle. simpl. lia.
Qed.
End Aggregate.

(** ** The daily streak *)

Section Streak.
Implicit Types (d : date) (p : progress).

Lemma digit_inj a b : digit a = digit b → a mod 10 = b mod 10.
Proof.
  unfold digit. intros H. apply (f_equal nat_of_ascii) in H.
  pose proof (Z.mod_pos_bound a 10 ltac:(lia)).
  pose proof (Z.mod_pos_bound b 10 ltac:(lia)).
  rewrite !nat_ascii_embedding in H by lia. lia.
Qed.

Lemma four_digits_inj a b :
  0 <= a <= 9999 → 0 <= b <= 9999 →
  (a / 1000) mod 10 = (b / 1000) mod 10 → (a / 100) mod 10 = (b / 100) mod 10 →
  (a / 10) mod 10 = (b / 10) mod 10 → a mod 10 = b mod 10 → a = b.
Proof. intros. Z.div_mod_to_equations. lia. Qed.

Lemma two_digits_inj a b :
  0 <= a <= 99 → 0 <= b <= 99 →
  (a / 10) mod 10 = (b / 10) mod 10 → a mod 10 = b mod 10 → a = b.
Proof. intros. Z.div_mod_to_equations. lia. Qed.

Lemma days_in_month_range y m : 28 <= days_in_month y m <= 31.
Proof.
  unfold days_in_month.
  destruct (m =? 2); [destruct (is_leap y); lia|].
  destruct ((m =? 4) || (m =? 6) || (m =? 9) || (m =? 11)); lia.
Qed.

(** [isoformat] tells valid dates apart. *)
Lemma isoformat_inj d1 d2 :
  valid_date d1 → valid_date d2 → isoformat d1 = isoformat d2 → d1 = d2.
Proof.
  destruct d1 as [y1 m1 a1], d2 as [y2 m2 a2].
  intros (Hy1 & Hm1 & Ha1) (Hy2 & Hm2 & Ha2) H. simpl in *.
  pose proof (days_in_month_range y1 m1) as Hr1.
  pose proof (days_in_month_range y2 m2) as Hr2.
  unfold isoformat in H. simpl in H.
  injection H as E1 E2 E3 E4 E5 E6 E7 E8.
  apply digit_inj in E1, E2, E3, E4, E5, E6, E7, E8.
  f_equal.
  - apply four_digits_inj; (done || lia).
  - apply two_digits_inj; (done || lia).
  - apply two_digits_inj; (done || lia).
Qed.

Lemma isoformat_nonempty d : isoformat d ≠ "".
Proof. done. Qed.

Lemma yesterday_valid d y : valid_date d → yesterday d = Some y → valid_date y.
Proof.
  destruct d as [yy mm dd]. unfold yesterday, valid_date. simpl.
  intros (Hy & Hm & Hd) Hyes.
  destruct (Z.ltb_spec 1 dd); [|destruct (Z.ltb_spec 1 mm); [|destruct (Z.ltb_spec 1 yy)]];
    simplify_eq; simpl.
  - lia.
  - pose proof (days_in_month_range yy (mm - 1)). lia.
  - unfold days_in_month. simpl. lia.
Qed.

Lemma yesterday_lt d y : valid_date d → yesterday d = Some y → date_lt y d.
Proof.
  destruct d as [yy mm dd]. unfold yesterday, valid_date, date_lt. simpl.
  intros (Hy & Hm & Hd) Hyes.
  destruct (Z.ltb_spec 1 dd); [|destruct (Z.ltb_spec 1 mm); [|destruct (Z.ltb_spec 1 yy)]];
    simplify_eq; simpl; lia.
Qed.

Lemma date_lt_neq a b : date_lt a b → a ≠ b.
Proof. unfold date_lt. intros H ->. lia. Qed.

Lemma date_lt_trans a b c : date_lt a b → date_lt b c → date_lt a c.
Proof. unfold date_lt. lia. Qed.

Lemma eqb_isoformat_neq d1 d2 :
  valid_date d1 → valid_date d2 → d1 ≠ d2 →
  String.eqb (isoformat d1) (isoformat d2) = false.
Proof.
  intros H1 H2 Hne. apply String.eqb_neq. intros Heq.
  by apply Hne, isoformat_inj.
Qed.

(** C5.  With [today] the date of the call and [y] the day before it:
    a stored date equal to today leaves the document as it is; a stored
    date equal to yesterday adds exactly 1 to the streak; an empty stored
    date, or a date before yesterday, sets the streak to 1; and whatever
    else is stored, the stored date becomes today. *)
Theorem update_streak_cases p today y :
  valid_date today → yesterday today = Some y →
  (last_played p = isoformat today → update_streak today today p = Some p) ∧
  (last_played p = isoformat y →
     update_streak today today p =
     Some (Progress (xp p) (streak p + 1) (isoformat today) (best_speed p) (words p))) ∧
  (last_played p = "" →
     update_streak today today p =
     Some (Progress (xp p) 1 (isoformat today) (best_speed p) (words p))) ∧
  (∀ d, valid_date d → date_lt d y → last_played p = isoformat d →
     update_streak today today p =
     Some (Progress (xp p) 1 (isoformat today) (best_speed p) (words p))) ∧
  (last_played p ≠ isoformat today →
     ∃ p', update_streak today today p = Some p' ∧
           last_played p' = isoformat today ∧
           (streak p' = streak p + 1 ∨ streak p' = 1)).
Proof.
  intros Hv Hy.
  pose proof (yesterday_valid _ _ Hv Hy) as Hvy.
  pose proof (yesterday_lt _ _ Hv Hy) as Hlt.
  unfold update_streak. rewrite Hy. simpl. split_and!.
  - intros ->. by rewrite String.eqb_refl.
  - intros ->. rewrite eqb_isoformat_neq by (done || by apply date_lt_neq).
    by rewrite String.eqb_refl.
  - intros ->. done.
  - intros d Hvd Hd ->.
    rewrite !eqb_isoformat_neq;
      [|done|done|by apply date_lt_neq|done|done|
       by eapply date_lt_neq, date_lt_trans].
    done.
  - intros Hne. apply String.eqb_neq in Hne. rewrite Hne.
    destruct (String.eqb (last_played p) (isoformat y));
      [|destruct (String.eqb (last_played p) "")]; eexists; (split; [reflexivity|]);
      simpl; auto.
Qed.

Lemma update_streak_cases_witness :
  update_streak (Date 2024 3 1) (Date 2024 3 1)
    (Progress 40 6 "2024-02-29" 3 ∅) = Some (Progress 40 7 "2024-03-01" 3 ∅).
Proof.
  assert (valid_date (Date 2024 3 1)) as Hv by (vm_compute; intuition discriminate).
  assert (yesterday (Date 2024 3 1) = Some (Date 2024 2 29)) as Hy by reflexivity.
  destruct (update_streak_cases (Progress 40 6 "2024-02-29" 3 ∅) _ _ Hv Hy)
    as (_ & H & _).
  apply H. reflexivity.
Defined.
End Streak.

(** ** The choices of a quiz question *)

Section Choices.
Variable E : env.
Hypothesis E_sound : env_sound E.

Lemma random_shuffle_spec {A} (l : list A) w :
  ∃ sh, random_shuffle E l w =
          Done sh (World (doc w) (log w) (S (rng w)) (ticks w) (prompts w)) ∧
        Permutation sh l.
Proof.
  eexists. split; [reflexivity|].
  apply shuffle_by_perm. destruct E_sound as (_ & Hperm & _). apply Hperm.
Qed.

Lemma pad_choices_spec pool : ∀ choices,
  ∃ extra, pad_choices choices pool = choices ++ extra ∧
           (∀ x, x ∈ extra → x ∈ pool) ∧
           (4 <= len choices → extra = []).
Proof.
  induction pool as [|x pool IH]; intros choices.
  - exists []. rewrite app_nil_r. by split_and!.
  - simpl. destruct (Z.ltb_spec (len choices) 4) as [Hlt|Hge].
    + destruct (IH (choices ++ [x])) as (extra & -> & Hin & _).
      exists (x :: extra). rewrite <- app_assoc. split_and!; [done| |lia].
      intros y [->|Hy]%elem_of_cons; [left|right; by apply Hin].
    + exists []. rewrite app_nil_r. split_and!; [done| |done].
      by intros y ?%elem_of_nil.
Qed.

Lemma count_occ_absent (l : list string) (c : string) :
  c ∉ l → count_occ string_dec l c = 0%nat.
Proof. intros H. apply count_occ_not_In. by rewrite <- list_elem_of_In. Qed.

Lemma remove_dups_pair (c : string) : remove_dups [c; c] = [c].
Proof.
  cbn [remove_dups].
  destruct (decide_rel elem_of c [c]) as [H|H]; [done|].
  exfalso. apply H. left.
Qed.

(** The multiple-choice set before any statement about repeats. *)
Lemma quiz_choices_run field words correct_answer w :
  let wrong_pool := map field (filter (λ v, field v ≠ correct_answer) words) in
  ∃ sh extra choices w',
    quiz_choices E field words correct_answer w = Done choices w' ∧
    doc w' = doc w ∧ log w' = log w ∧ prompts w' = prompts w ∧ ticks w' = ticks w ∧
    Permutation sh wrong_pool ∧
    (∀ x, x ∈ extra → x ∈ wrong_pool) ∧
    (3 ≤ length wrong_pool → extra = [])%nat ∧
    Permutation choices (correct_answer :: take 3 sh ++ extra).
Proof.
  intros wrong_pool. unfold quiz_choices. fold wrong_pool.
  destruct (random_shuffle_spec wrong_pool w) as (sh & Hsh & Hperm).
  unfold mbind at 1, M_bind at 1. rewrite Hsh.
  destruct (pad_choices_spec (rev sh) (correct_answer :: take 3 sh))
    as (extra & Hpad & Hextra & Hfull).
  rewrite Hpad.
  set (w1 := World _ _ _ _ _).
  destruct (random_shuffle_spec ((correct_answer :: take 3 sh) ++ extra) w1)
    as (ch & Hch & Hperm2).
  unfold mbind, M_bind. rewrite Hch. simpl in Hperm2.
  assert (∀ x, x ∈ extra → x ∈ wrong_pool) as Hextra'.
  { intros x Hx. rewrite <- Hperm. apply Hextra in Hx.
    apply list_elem_of_In, in_rev. by apply list_elem_of_In. }
  assert ((3 ≤ length wrong_pool)%nat → extra = []) as Hfull'.
  { intros H3. apply Hfull. unfold len. simpl.
    rewrite length_take, (Permutation_length Hperm). lia. }
  destruct (Z.ltb_spec (len ch) 2) as [Hshort|Hlong].
  - assert (take 3 sh ++ extra = []) as Hnil.
    { apply Permutation_length in Hperm2. unfold len in Hshort.
      simpl in Hperm2. apply length_zero_iff_nil. lia. }
    rewrite Hnil in Hperm2. apply Permutation_singleton_r in Hperm2 as ->.
    exists sh, extra, [correct_answer], (World (doc w) (log w) (S (S (rng w))) (ticks w) (prompts w)).
    split_and!; try done.
    + cbn [app]. by rewrite remove_dups_pair.
    + by rewrite Hnil.
  - by exists sh, extra, ch, (World (doc w) (log w) (S (S (rng w))) (ticks w) (prompts w)).
Qed.

(** C4.  The choices of a quiz question contain the correct
    answer exactly once and every other entry is a value of the pool
    different from the correct answer; when the pool holds at least three
    such values the result has exactly four entries, the three alternatives
    being the first three of a permutation of them, so that they are
    pairwise distinct whenever the pool values are. *)
Theorem quiz_choices_correct_once field words correct_answer w :
  let pool := map field words in
  let wrong_pool := map field (filter (λ v, field v ≠ correct_answer) words) in
  ∃ choices w',
    quiz_choices E field words correct_answer w = Done choices w' ∧
    count_occ string_dec choices correct_answer = 1%nat ∧
    (∀ x, x ∈ choices → x ≠ correct_answer → x ∈ pool) ∧
    ((3 ≤ length wrong_pool)%nat →
       length choices = 4%nat ∧
       ∃ sh, Permutation sh wrong_pool ∧
             Permutation choices (correct_answer :: take 3 sh)) ∧
    ((3 ≤ length wrong_pool)%nat → NoDup wrong_pool → NoDup choices).
Proof.
  intros pool wrong_pool.
  destruct (quiz_choices_run field words correct_answer w)
    as (sh & extra & choices & w' & Hrun & _ & _ & _ & _ & Hsh & Hextra & Hfull & Hch).
  fold wrong_pool in Hsh, Hextra, Hfull.
  assert (∀ x, x ∈ wrong_pool → x ≠ correct_answer ∧ x ∈ pool) as Hwrong.
  { intros x (v & -> & [Hv Hin]%list_elem_of_filter)%list_elem_of_fmap.
    split; [done|]. by apply list_elem_of_fmap_2. }
  assert (∀ x, x ∈ take 3 sh ++ extra → x ∈ wrong_pool) as Hrest.
  { intros x [Hx|Hx]%elem_of_app; [|by apply Hextra].
    rewrite <- Hsh. eapply elem_of_sublist; [exact Hx|apply sublist_take]. }
  exists choices, w'. split_and!; [done| | | |].
  - rewrite (Permutation_count_occ string_dec) in Hch. rewrite Hch.
    cbn [count_occ]. destruct (string_dec correct_answer correct_answer); [|done].
    rewrite count_occ_absent; [done|].
    intros Hin. by apply Hrest, Hwrong in Hin as [? _].
  - intros x Hx Hne. rewrite Hch in Hx.
    apply elem_of_cons in Hx as [->|Hx]; [done|].
    by apply Hrest, Hwrong in Hx as [_ ?].
  - intros H3. rewrite (Hfull H3), app_nil_r in Hch. split.
    + rewrite (Permutation_length Hch). simpl.
      rewrite length_take, (Permutation_length Hsh). lia.
    + by exists sh.
  - intros H3 Hnd. rewrite (Hfull H3), app_nil_r in Hch. rewrite Hch.
    apply NoDup_cons. split.
    + intros Hin.
      assert (correct_answer ∈ wrong_pool) as Hin'.
      { apply Hrest, elem_of_app. by left. }
      by apply Hwrong in Hin' as [? _].
    + apply (sublist_NoDup _ sh); [by rewrite Hsh|apply sublist_take].
Qed.
End Choices.

Lemma quiz_choices_correct_once_witness :
  ∃ choices w',
    quiz_choices demo_env de zoo "Hund" (world0 fresh_progress) = Done choices w' ∧
    count_occ string_dec choices "Hund" = 1%nat ∧ length choices = 4%nat ∧
    NoDup choices.
Proof.
  destruct (quiz_choices_correct_once demo_env demo_env_sound de zoo "Hund"
              (world0 fresh_progress))
    as (choices & w' & Hrun & Hone & _ & Hfour & Hnd).
  assert (3 ≤ length (map de (filter (λ v : word, de v ≠ "Hund") zoo)))%nat as H3
    by (vm_compute; lia).
  exists choices, w'. split_and!; [exact Hrun|exact Hone| |].
  - apply (Hfour H3).
  - apply (Hnd H3). apply (bool_decide_unpack _). by vm_compute.
Defined.

(** With five pronouns of which three are rendered "you", the pool for "I"
    offers three different values and the question still shows one of them
    twice. *)
Lemma quiz_choices_repeated_alternative :
  ∃ choices w',
    quiz_choices demo_env en pronouns "I" (world0 fresh_progress) = Done choices w' ∧
    choices = ["he"; "you"; "you"; "I"] ∧
    (3 ≤ length (remove_dups (filter (λ x, x ≠ "I") (map en pronouns))))%nat ∧
    ¬ NoDup (filter (λ x, x ≠ "I") choices).
Proof.
  eexists _, _. split; [by vm_compute|]. split; [done|]. split; [vm_compute; lia|].
  vm_compute. intros Hnd. apply NoDup_cons in Hnd as [_ Hnd].
  apply NoDup_cons in Hnd as [Hin _]. apply Hin. left.
Qed.

(** A category of three words: the padding loop takes an entry that the
    slice had already taken, here "Katze". *)
Example quiz_choices_padding_repeats :
  ∃ w', quiz_choices demo_env de pets "Hund" (world0 fresh_progress) =
        Done ["Katze"; "Katze"; "Maus"; "Hund"] w'.
Proof. eexists. by vm_compute. Qed.

(** ** Quiz mode *)

Section Quiz.
Variable E : env.
Hypothesis E_sound : env_sound E.

Lemma score_answer_spec category w ok award W :
  score_answer category w ok award W =
  Done () (World (scored (doc W) category w ok award)
             (Saved (scored (doc W) category w ok award) :: Feedback ok :: log W)
             (rng W) (ticks W) (prompts W)).
Proof. by destruct ok. Qed.

Lemma scored_bounded p category w ok award :
  mastery_bounded p → mastery_bounded (scored p category w ok award).
Proof.
  intros Hp. unfold scored. destruct ok.
  - by apply (record_answer_bounded p category (de w) true).
  - by apply (record_answer_bounded p category (de w) false).
Qed.

Lemma scored_best_speed p category w ok award :
  best_speed (scored p category w ok award) = best_speed p.
Proof. by destruct ok. Qed.

Lemma get_mastery_set_xp p v category de_word :
  get_mastery (set_xp p v) category de_word = get_mastery p category de_word.
Proof. done. Qed.

Lemma py_index_in_range {A} (l : list A) (i : Z) :
  0 <= i < len l → is_Some (py_index l i).
Proof.
  intros Hi. unfold py_index.
  destruct (Z.leb_spec 0 i); [|lia]. destruct (Z.ltb_spec i (len l)); [|lia].
  simpl. apply lookup_lt_is_Some. unfold len in *. lia.
Qed.



End Quiz.


(** One question of a fresh learner, answered correctly: 10 xp, mastery 1,
    one write. *)
Example quiz_question_first_answer :
  ∃ W', quiz_question demo_env "animals" zoo 1 (Word "Hund" "dog")
          (world0 fresh_progress) = Done true W' ∧
        xp (doc W') = 10 ∧ get_mastery (doc W') "animals" "Hund" = 1 ∧
        saves (log W') = [doc W'].
Proof. eexists. by vm_compute. Qed.

(** ** Word lists that are too short *)

(** C8.  With fewer than two words, quiz mode and the speed round print
    their "not enough words" message, wait for Enter and return: the
    progress document, the random state and the count of answers read are
    those of the start, nothing was written and no question was put. *)
Theorem short_list_declined (E : env) (fuel : nat) (category : string)
    (words : list word) (W : world) :
  len words < 2 →
  ∃ Wq Ws,
    quiz_mode E category words W = Done () Wq ∧
    speed_round E fuel category words W = Done () Ws ∧
    log Wq = PressEnter ::
             Say "[red]Not enough words for a quiz in this category.[/red]" :: log W ∧
    log Ws = PressEnter :: Say "[red]Not enough words for a speed round.[/red]" :: log W ∧
    doc Wq = doc W ∧ doc Ws = doc W ∧
    saves (log Wq) = saves (log W) ∧ saves (log Ws) = saves (log W) ∧
    existsb is_question (take 2 (log Wq)) = false ∧
    existsb is_question (take 2 (log Ws)) = false ∧
    prompts Wq = prompts W ∧ prompts Ws = prompts W ∧
    rng Wq = rng W ∧ rng Ws = rng W.
Proof.
  intros Hlen. unfold quiz_mode, speed_round.
  destruct (Z.ltb_spec (len words) 2) as [_|?]; [|lia].
  eexists _, _. split; [reflexivity|]. split; [reflexivity|]. simpl.
  by split_and!.
Qed.

Lemma short_list_declined_witness :
  ∃ Wq Ws,
    quiz_mode demo_env "animals" [Word "Hund" "dog"] (world0 fresh_progress) = Done () Wq ∧
    speed_round demo_env 5 "animals" [Word "Hund" "dog"] (world0 fresh_progress) = Done () Ws ∧
    doc Wq = fresh_progress ∧ doc Ws = fresh_progress.
Proof.
  destruct (short_list_declined demo_env 5 "animals" [Word "Hund" "dog"]
              (world0 fresh_progress))
    as (Wq & Ws & Hq & Hs & _ & _ & Hdq & Hds & _); [vm_compute; reflexivity|].
  by exists Wq, Ws.
Defined.

(** ** Reasoning about computations *)

Section Logic.
Context {A B : Type}.
Implicit Types (m : M A) (f : A → M B) (W : world).




Lemma wlp_ret (a : A) (Q : A → world → Prop) W : Q a W → wlp (mret a) Q W.
Proof. by intros H a' W' [= <- <-]. Qed.

Lemma wlp_bind m f (Q : B → world → Prop) W :
  wlp m (λ a W1, wlp (f a) Q W1) W → wlp (m ≫= f) Q W.
Proof.
  intros H b W2. unfold mbind, M_bind.
  destruct (m W) as [a W1| |] eqn:Hm; [|done..].
  by apply (H a W1).
Qed.

Lemma wlp_mono m (Q Q' : A → world → Prop) W :
  wlp m Q W → (∀ a W', Q a W' → Q' a W') → wlp m Q' W.
Proof. intros H HQ a W' Hm. by apply HQ, H. Qed.

Lemma wlp_raise e (Q : A → world → Prop) W : wlp (raise e) Q W.
Proof. by intros a W'. Qed.

Lemma wlp_out_of_fuel (Q : A → world → Prop) W : wlp out_of_fuel Q W.
Proof. by intros a W'. Qed.

Lemma wp_wlp m (Q Q' : A → world → Prop) W :
  wp m Q W → wlp m Q' W → wp m (λ a W', Q a W' ∧ Q' a W') W.
Proof. intros (a & W' & Hm & HQ) H. exists a, W'. split; [done|]. split; [done|]. by apply H. Qed.
End Logic.

Section LogicPrimitives.
Variable E : env.
Implicit Types (W : world).


Lemma wlp_done {A} (m : M A) (Q : A → world → Prop) W a W' :
  m W = Done a W' → Q a W' → wlp m Q W.
Proof. intros Hm HQ a' W''. rewrite Hm. by intros [= <- <-]. Qed.

Lemma wlp_random_choices {A} (population : list A) weights
    (Q : A → world → Prop) W :
  (∀ x, Q x (World (doc W) (log W) (S (rng W)) (ticks W) (prompts W))) →
  wlp (random_choices E population weights) Q W.
Proof.
  intros HQ a W'. unfold random_choices.
  destruct (sum weights <=? 0); [done|].
  unfold mbind, M_bind, random_index. simpl.
  destruct (population !! _); [|done]. intros [= <- <-]. apply HQ.
Qed.

End LogicPrimitives.

(** ** The speed round *)

Section Speed.
Variable E : env.

Ltac run_prim :=
  eapply wlp_done; [reflexivity|]; cbn beta; cbn [doc log rng ticks prompts].
Ltac run_bind := apply wlp_bind.


Lemma speed_finish_spec score total W :
  speed_finish score total W =
  Done () (if best_speed (doc W) <? score
           then World (set_best_speed (doc W) score)
                  (PressEnter :: Report score total ::
                     Saved (set_best_speed (doc W) score) :: log W)
                  (rng W) (ticks W) (prompts W)
           else World (doc W) (PressEnter :: Report score total :: log W)
                  (rng W) (ticks W) (prompts W)).
Proof. unfold speed_finish, mbind, M_bind, get_doc. by destruct (_ <? score). Qed.







End Speed.


(** A round in which the learner presses Enter twice and the last choice
    happens to be the right one: two points, a new personal best, three
    writes of the document. *)
Example speed_round_new_best :
  ∃ W', speed_round stuck_env 9 "animals" zoo (world0 fresh_progress) = Done () W' ∧
        best_speed (doc W') = 2 ∧ xp (doc W') = 10 ∧
        length (saves (log W')) = 3%nat.
Proof. eexists. by vm_compute. Qed.

(** The same round against a stored best of 7 leaves it alone. *)
Example speed_round_keeps_best :
  ∃ W', speed_round stuck_env 9 "animals" zoo
          (world0 (Progress 0 0 "" 7 ∅)) = Done () W' ∧
        best_speed (doc W') = 7 ∧ length (saves (log W')) = 2%nat.
Proof. eexists. by vm_compute. Qed.

(** ** The mastery store: keys, counters, runs of answers *)

Section StoreMore.
Implicit Types (p : progress) (category de_word : string).

Lemma string_append_cons (x : ascii) (a b : string) :
  String x a +:+ b = String x (a +:+ b).
Proof. reflexivity. Qed.

Lemma string_append_assoc (a b c : string) : (a +:+ b) +:+ c = a +:+ b +:+ c.
Proof.
  induction a as [|x a IH]; [done|].
  by rewrite !string_append_cons, IH.
Qed.

Lemma append_colon_inj (c c' rest rest' : string) :
  has_colon c = false → has_colon c' = false →
  c +:+ String ":" rest = c' +:+ String ":" rest' → c = c' ∧ rest = rest'.
Proof.
  revert c'. induction c as [|a c IH]; intros [|a' c'] Hc Hc' Heq; simpl in *.
  - by injection Heq as ->.
  - injection Heq as <- _. by rewrite Ascii.eqb_refl in Hc'.
  - injection Heq as -> _. by rewrite Ascii.eqb_refl in Hc.
  - injection Heq as -> Heq.
    apply orb_false_iff in Hc as [_ Hc]. apply orb_false_iff in Hc' as [_ Hc'].
    destruct (IH c' Hc Hc' Heq) as [-> ->]. done.
Qed.

(** Keys of colon-free categories tell the pairs apart. *)
Lemma get_word_key_inj category de_word category' de_word' :
  has_colon category = false → has_colon category' = false →
  get_word_key category de_word = get_word_key category' de_word' →
  category = category' ∧ de_word = de_word'.
Proof. unfold get_word_key. apply append_colon_inj. Qed.

Lemma CATEGORIES_colon_free category :
  category ∈ CATEGORIES → has_colon category = false.
Proof.
  unfold CATEGORIES. rewrite !elem_of_cons, elem_of_nil.
  intros H. repeat (destruct H as [->|H]; [done|]). done.
Qed.

(** X1.  An answer recorded for one (category, word) pair leaves the record
    of every other pair as it was, provided neither category name holds a
    colon, which is the case of all names in [CATEGORIES]. *)
Theorem record_answer_other_pair p category de_word category' de_word' b :
  has_colon category = false → has_colon category' = false →
  (category, de_word) ≠ (category', de_word') →
  words (record_answer p category de_word b) !! get_word_key category' de_word'
    = words p !! get_word_key category' de_word' ∧
  get_mastery (record_answer p category de_word b) category' de_word'
    = get_mastery p category' de_word'.
Proof.
  intros Hc Hc' Hne.
  assert (get_word_key category' de_word' ≠ get_word_key category de_word) as Hk.
  { intros Heq. apply get_word_key_inj in Heq as [-> ->]; done. }
  pose proof (record_answer_other p category de_word b _ Hk) as Hsame.
  split; [done|]. unfold get_mastery. by rewrite Hsame.
Qed.

Lemma record_answer_other_pair_witness :
  get_mastery (record_answer fresh_progress "verbs" "gehen" true) "nouns" "gehen" = 0.
Proof.
  destruct (record_answer_other_pair fresh_progress "verbs" "gehen" "nouns" "gehen" true)
    as [_ H]; [reflexivity|reflexivity|discriminate|].
  rewrite H. reflexivity.
Defined.

(** X2.  The key is the only identity of a record: a category name that
    holds a colon shares its records with the shorter category, so an answer
    for [w2] in category ["c:w1"] is an answer for ["w1:w2"] in category
    ["c"]. *)
Theorem record_answer_colon_alias p category w1 w2 b :
  get_word_key (category +:+ ":" +:+ w1) w2 = get_word_key category (w1 +:+ ":" +:+ w2) ∧
  entry_of (record_answer p (category +:+ ":" +:+ w1) w2 b) category (w1 +:+ ":" +:+ w2) =
  entry_of (record_answer p category (w1 +:+ ":" +:+ w2) b) category (w1 +:+ ":" +:+ w2).
Proof.
  assert (get_word_key (category +:+ ":" +:+ w1) w2 =
          get_word_key category (w1 +:+ ":" +:+ w2)) as Hk.
  { unfold get_word_key. by rewrite !string_append_assoc. }
  split; [done|]. unfold entry_of, record_answer. by rewrite Hk.
Qed.
End StoreMore.

Section StoreCounters.
Implicit Types (p : progress) (category de_word : string).

Lemma calls_on_cons key verdict c calls :
  calls_on key verdict (c :: calls) =
  (if decide (get_word_key c.1.1 c.1.2 = key ∧ c.2 = verdict) then 1 else 0)
  + calls_on key verdict calls.
Proof.
  unfold calls_on, len. rewrite filter_cons.
  destruct (decide _); simpl; lia.
Qed.

Lemma record_answer_counters p category de_word b key :
  let e := default new_entry (words p !! key) in
  let e' := default new_entry (words (record_answer p category de_word b) !! key) in
  correct e' = correct e
    + (if decide (get_word_key category de_word = key ∧ b = true) then 1 else 0) ∧
  wrong e' = wrong e
    + (if decide (get_word_key category de_word = key ∧ b = false) then 1 else 0).
Proof.
  intros e e'. subst e e'. rewrite words_record_answer.
  destruct (decide (get_word_key category de_word = key)) as [<-|Hne].
  - rewrite lookup_insert_eq. unfold entry_of.
    destruct b; simpl; repeat case_decide; try lia; exfalso; intuition congruence.
  - rewrite lookup_insert_ne by done.
    repeat case_decide; try lia; exfalso; intuition congruence.
Qed.

(** X3.  The counters of a record are an exact tally: after any sequence
    of calls the correct counter has grown by the number of correct answers
    recorded under that key and the wrong counter by the number of wrong
    ones, so neither ever decreases. *)
Theorem record_answers_tally calls : ∀ p key,
  let e := default new_entry (words p !! key) in
  let e' := default new_entry (words (record_answers p calls) !! key) in
  correct e' = correct e + calls_on key true calls ∧
  wrong e' = wrong e + calls_on key false calls ∧
  correct e <= correct e' ∧ wrong e <= wrong e'.
Proof.
  assert (∀ key v l, 0 <= calls_on key v l) as Hpos by (intros; unfold calls_on, len; lia).
  induction calls as [|[[c w] b] calls IH]; intros p key; cbn zeta.
  - unfold calls_on, len. simpl. lia.
  - change (record_answers p ((c, w, b) :: calls))
      with (record_answers (record_answer p c w b) calls).
    destruct (IH (record_answer p c w b) key) as (Hc & Hw & _).
    destruct (record_answer_counters p c w b key) as [Hc1 Hw1].
    cbn zeta in Hc, Hw, Hc1, Hw1. rewrite Hc, Hw, Hc1, Hw1, !calls_on_cons. cbn [fst snd].
    pose proof (Hpos key true calls). pose proof (Hpos key false calls).
    repeat case_decide; lia.
Qed.

Lemma record_repeat_S p category de_word b n :
  record_repeat p category de_word b (S n) =
  record_answer (record_repeat p category de_word b n) category de_word b.
Proof. done. Qed.

(** X4.  A run of [n] correct answers for one word of a store with mastery
    values in [0,5] leaves its mastery at [min (m+n) 5], a run of [n] wrong
    answers at [max (m-n) 0]: three correct answers in a row always make
    a word count as learned, five wrong ones always bring it back to 0. *)
Theorem record_repeat_mastery p category de_word n :
  mastery_bounded p →
  let m := get_mastery p category de_word in
  get_mastery (record_repeat p category de_word true n) category de_word
    = Z.min (m + Z.of_nat n) 5 ∧
  get_mastery (record_repeat p category de_word false n) category de_word
    = Z.max (m - Z.of_nat n) 0 ∧
  ((3 ≤ n)%nat →
     3 <= get_mastery (record_repeat p category de_word true n) category de_word) ∧
  ((5 ≤ n)%nat →
     get_mastery (record_repeat p category de_word false n) category de_word = 0).
Proof.
  intros Hp m.
  pose proof (get_mastery_bounded p category de_word Hp) as Hm. fold m in Hm.
  assert (∀ k, get_mastery (record_repeat p category de_word true k) category de_word
                 = Z.min (m + Z.of_nat k) 5) as Hup.
  { induction k as [|k IH]; [simpl; lia|].
    rewrite record_repeat_S, get_mastery_entry_of, entry_of_record_answer.
    cbn [mastery]. rewrite <- get_mastery_entry_of, IH. lia. }
  assert (∀ k, get_mastery (record_repeat p category de_word false k) category de_word
                 = Z.max (m - Z.of_nat k) 0) as Hdown.
  { induction k as [|k IH]; [simpl; lia|].
    rewrite record_repeat_S, get_mastery_entry_of, entry_of_record_answer.
    cbn [mastery]. rewrite <- get_mastery_entry_of, IH. lia. }
  rewrite Hup, Hdown. split_and!; [done|done|lia|lia].
Qed.

Lemma record_repeat_mastery_witness :
  get_mastery (record_repeat fresh_progress "verbs" "gehen" true 7) "verbs" "gehen" = 5.
Proof.
  destruct (record_repeat_mastery fresh_progress "verbs" "gehen" 7 fresh_progress_bounded)
    as [H _].
  rewrite H. reflexivity.
Defined.
End StoreCounters.

(** ** Learned words and answers *)

Section AggregateMore.
Implicit Types (p : progress) (category de_word : string).

Lemma words_learned_count_size p :
  words_learned_count p = Z.of_nat (size (learned_records p)).
Proof.
  unfold words_learned_count, words_values, learned_records.
  by rewrite count_ones_length, length_filter_values.
Qed.

Lemma learned_records_lookup p key :
  learned_records p !! key =
  match words p !! key with
  | Some e => if decide (3 <= mastery e) then Some e else None
  | None => None
  end.
Proof.
  unfold learned_records. apply option_eq. intros e.
  rewrite map_lookup_filter_Some. simpl.
  destruct (words p !! key) as [e0|]; [|by split; [intros [? _]|]].
  case_decide; split.
  - by intros [[= ->] _].
  - by intros [= ->].
  - intros [[= ->] ?]. done.
  - done.
Qed.

Lemma size_lookup_pos {A} (m : gmap string A) key x :
  m !! key = Some x → (0 < size m)%nat.
Proof.
  intros Hx. destruct (size m) eqn:Hs; [|lia].
  apply map_size_empty_inv in Hs. subst m. by rewrite lookup_empty in Hx.
Qed.

(** The size of the learned part after one record is replaced. *)
Lemma learned_records_insert p key e' :
  Z.of_nat (size (learned_records (set_words p (<[key := e']> (words p))))) =
  Z.of_nat (size (learned_records p))
  - (if decide (is_Some (learned_records p !! key)) then 1 else 0)
  + (if decide (3 <= mastery e') then 1 else 0).
Proof.
  unfold learned_records at 1. cbn [words set_words].
  rewrite map_filter_insert. cbn [snd].
  fold (learned_records p).
  destruct (decide (3 <= mastery e')) as [He'|He'].
  - rewrite map_size_insert.
    destruct (learned_records p !! key) as [e|] eqn:Hk.
    + rewrite decide_True by done. simpl. lia.
    + rewrite decide_False by (by intros [? ?]). simpl. lia.
  - rewrite map_filter_delete. fold (learned_records p). rewrite map_size_delete.
    destruct (learned_records p !! key) as [e|] eqn:Hk.
    + rewrite decide_True by done. apply size_lookup_pos in Hk. simpl. lia.
    + rewrite decide_False by (by intros [? ?]). simpl. lia.
Qed.

(** X5.  One answer moves the learned-word count by at most one: it grows
    by one exactly when a correct answer lifts a mastery of 2 to 3, shrinks
    by one exactly when a wrong answer drops a mastery of 3 to 2, and stays
    as it is in every other case. *)
Theorem words_learned_count_step p category de_word b :
  let m := get_mastery p category de_word in
  words_learned_count (record_answer p category de_word b) =
  words_learned_count p
  + (if b then (if m =? 2 then 1 else 0) else (if m =? 3 then -1 else 0)).
Proof.
  intros m. rewrite !words_learned_count_size.
  unfold record_answer. rewrite learned_records_insert, learned_records_lookup.
  subst m. unfold get_mastery.
  destruct (words p !! get_word_key category de_word) as [e|]; cbn [default mastery new_entry].
  - destruct (decide (3 <= mastery e)) as [He|He].
    + rewrite decide_True by done.
      destruct b; cbn [mastery]; case_decide; unfold id in *;
        destruct (Z.eqb_spec (mastery e) 2); destruct (Z.eqb_spec (mastery e) 3); lia.
    + rewrite decide_False by (by intros [? ?]).
      destruct b; cbn [mastery]; case_decide; unfold id in *;
        destruct (Z.eqb_spec (mastery e) 2); destruct (Z.eqb_spec (mastery e) 3); lia.
  - rewrite decide_False by (by intros [? ?]).
    destruct b; cbn [mastery]; case_decide; simpl; lia.
Qed.

Lemma category_completion_cons p category w ws :
  (category_completion p category (w :: ws) ==
     Z.of_nat (length (filter (learned p category) (w :: ws)))
       # Pos.of_nat (length (w :: ws)))%Q.
Proof.
  unfold category_completion. rewrite count_ones_length. unfold len.
  set (k := length (filter _ _)). set (n := length (w :: ws)).
  assert (0 < n)%nat by (unfold n; simpl; lia).
  rewrite Qmake_Qdiv. f_equiv. unfold inject_Z. f_equiv. lia.
Qed.

Lemma filter_all_length {A} (P : A → Prop) `{∀ x, Decision (P x)} (l : list A) :
  length (filter P l) = length l ↔ Forall P l.
Proof.
  induction l as [|x l IH]; [by split|].
  rewrite filter_cons, Forall_cons. pose proof (length_filter P l).
  destruct (decide (P x)); simpl.
  - rewrite <- IH. split; [intros; split; [done|lia]|intros [_ ?]; lia].
  - split; [lia|by intros [? _]].
Qed.

Lemma filter_none_length {A} (P : A → Prop) `{∀ x, Decision (P x)} (l : list A) :
  length (filter P l) = 0%nat ↔ Forall (λ x, ¬ P x) l.
Proof.
  induction l as [|x l IH]; [by split|].
  rewrite filter_cons, Forall_cons.
  destruct (decide (P x)); simpl.
  - split; [lia|by intros [? _]].
  - rewrite IH. split; [done|by intros [_ ?]].
Qed.

(** X6.  For a non-empty word list [category_completion] is 1 exactly when
    every word of the list has mastery at least 3, and 0 exactly when none
    has. *)
Theorem category_completion_full p category (w : word) (ws : list word) :
  ((category_completion p category (w :: ws) == 1)%Q ↔
     Forall (learned p category) (w :: ws)) ∧
  ((category_completion p category (w :: ws) == 0)%Q ↔
     Forall (λ v, ¬ learned p category v) (w :: ws)).
Proof.
  rewrite category_completion_cons.
  pose proof (filter_all_length (learned p category) (w :: ws)) as Hall.
  pose proof (filter_none_length (learned p category) (w :: ws)) as Hnone.
  revert Hall Hnone.
  generalize (length (filter (learned p category) (w :: ws))). intros k Hall Hnone.
  rewrite <- Hall, <- Hnone.
  assert (Z.pos (Pos.of_nat (length (w :: ws))) = Z.of_nat (length (w :: ws))) as Hden.
  { rewrite <- positive_nat_Z, Nat2Pos.id; simpl; lia. }
  unfold Qeq. cbn [Qnum Qden]. rewrite Hden. change (Z.pos 1) with 1.
  split; split; intros; lia.
Qed.
End AggregateMore.

(** ** The sampler: full orderings and edge cases *)

Section SamplerMore.
Variable E : env.

Lemma picked_at_omap words idxs res :
  picked_at words idxs res → res = omap (λ i, words !! i) idxs.
Proof.
  induction 1 as [|i w idxs res Hi _ IH]; [done|].
  csimpl. rewrite Hi. simpl. by f_equal.
Qed.

Lemma picked_at_in_range words idxs res :
  picked_at words idxs res → ∀ i, i ∈ idxs → i ∈ seq 0 (length words).
Proof.
  induction 1 as [|i w idxs res Hi _ IH]; intros j Hj.
  - by apply elem_of_nil in Hj.
  - apply elem_of_cons in Hj as [->|Hj]; [|by apply IH].
    apply elem_of_seq. apply lookup_lt_Some in Hi. lia.
Qed.

(** X7.  Asked for at least as many entries as there are words,
    [weighted_sample] returns a permutation of the word list: the ordering
    that learn mode browses shows every card exactly once. *)
Theorem weighted_sample_full_ordering category words n w :
  env_sound E → words ≠ [] → mastery_bounded (doc w) → len words <= n →
  ∃ res w', weighted_sample E category words n w = Done res w' ∧
            Permutation res words.
Proof.
  intros Hsound Hne Hp Hn.
  destruct (weighted_sample_spec E Hsound category words n w)
    as (res & idxs & w' & Hrun & Hlen & Hnd & Hpick & _); [done|done|unfold len in *; lia|].
  exists res, w'. split; [done|].
  assert (Permutation idxs (seq 0 (length words))) as Hperm.
  { apply submseteq_length_Permutation.
    - apply NoDup_submseteq; [done|]. by apply (picked_at_in_range words idxs res).
    - rewrite length_seq, (Forall2_length _ _ _ Hpick). unfold len in *. lia. }
  rewrite (picked_at_omap _ _ _ Hpick), Hperm. by rewrite omap_lookup_seq.
Qed.

(** X8.  The edges of [weighted_sample]: an empty word list gives the empty
    list and touches nothing; a non-empty list whose weights add up to 0
    raises ZeroDivisionError whatever [n] is; and with a non-zero total,
    [n <= 0] gives the empty list without a single random draw. *)
Theorem weighted_sample_edges category words n w :
  weighted_sample E category [] n w = Done [] w ∧
  (words ≠ [] → sum (map (weight (doc w) category) words) = 0 →
     weighted_sample E category words n w = Raised ZeroDivisionError) ∧
  (words ≠ [] → sum (map (weight (doc w) category) words) ≠ 0 → n <= 0 →
     weighted_sample E category words n w = Done [] w).
Proof.
  split; [done|]. split.
  - intros Hne Hsum. unfold weighted_sample. destruct words as [|w0 ws]; [done|].
    unfold mbind, M_bind, get_doc. by rewrite Hsum.
  - intros Hne Hsum Hn. unfold weighted_sample. destruct words as [|w0 ws]; [done|].
    unfold mbind, M_bind, get_doc.
    destruct (Z.eqb_spec (sum (map (weight (doc w) category) (w0 :: ws))) 0); [done|].
    set (n' := Z.min n (len (w0 :: ws))).
    assert (n' <= 0) as Hn' by (unfold n'; lia).
    assert ((len (@nil word) <? n') = false) as Hlt by (apply Z.ltb_ge; unfold len; simpl; lia).
    destruct (Z.to_nat (n' * 20)) as [|fuel]; cbn [sample_loop]; rewrite Hlt; simpl;
      rewrite Hlt; by destruct w.
Qed.
End SamplerMore.

Lemma weighted_sample_full_ordering_witness :
  ∃ res w', weighted_sample stuck_env "animals" zoo 9 (world0 fresh_progress) = Done res w' ∧
            Permutation res zoo.
Proof.
  apply (weighted_sample_full_ordering stuck_env "animals" zoo 9 (world0 fresh_progress));
    [apply stuck_env_sound|done|apply fresh_progress_bounded|vm_compute; discriminate].
Defined.

Lemma weighted_sample_edges_witness :
  weighted_sample demo_env "animals" [Word "Hund" "dog"] 1
    (world0 (Progress 0 0 "" 0 {[ "animals:Hund" := Entry 6 9 0 ]}))
  = Raised ZeroDivisionError.
Proof.
  destruct (weighted_sample_edges demo_env "animals" [Word "Hund" "dog"] 1
              (world0 (Progress 0 0 "" 0 {[ "animals:Hund" := Entry 6 9 0 ]})))
    as (_ & H & _).
  apply H; [done|]. vm_compute. reflexivity.
Defined.

(** ** Normalisation: the result and what it forgives *)

Section NormalizeMore.
Implicit Types (c : ascii) (t : list ascii).

Ltac by_char c := destruct c as [[] [] [] [] [] [] [] []]; vm_compute; try done.

Lemma plain_charb_spec c : plain_charb c = true → plain_char c.
Proof.
  unfold plain_charb, plain_char. rewrite !andb_true_iff, !negb_true_iff.
  intros ((((H1 & H2) & H3) & H4) & H5).
  apply Ascii.eqb_eq in H1. apply Ascii.eqb_neq in H2, H3, H4, H5. done.
Qed.

Lemma fold_lower_plainb c :
  forallb plain_charb (fold_diacritic (lower_char c)) = true.
Proof. by_char c. Qed.

Lemma fold_lower_plain c : Forall plain_char (fold_diacritic (lower_char c)).
Proof.
  apply Forall_forall. intros x Hx. apply plain_charb_spec.
  pose proof (fold_lower_plainb c) as H. rewrite forallb_forall in H.
  by apply H, list_elem_of_In.
Qed.

Lemma fold_lower_short c : (length (fold_diacritic (lower_char c)) ≤ 2)%nat.
Proof. destruct c as [[] [] [] [] [] [] [] []]; vm_compute; lia. Qed.

Lemma lstrip_sublist t : lstrip t `sublist_of` t.
Proof.
  induction t as [|c t IH]; [done|]. simpl.
  destruct (isspace c); [by apply sublist_cons|done].
Qed.

Lemma str_strip_length t : (length (str_strip t) ≤ length t)%nat.
Proof.
  unfold str_strip. rewrite length_rev.
  etrans; [apply lstrip_length|]. rewrite length_rev. apply lstrip_length.
Qed.

Lemma flat_map_length_le {A B} (f : A → list B) (k : nat) (l : list A) :
  (∀ x, length (f x) ≤ k)%nat → (length (flat_map f l) ≤ k * length l)%nat.
Proof.
  intros Hf. induction l as [|x l IH]; [simpl; lia|].
  simpl. rewrite length_app. specialize (Hf x). lia.
Qed.

Lemma length_list_ascii_of_string (s : string) :
  length (list_ascii_of_string s) = String.length s.
Proof. induction s as [|c s IH]; [done|]. simpl. by rewrite IH. Qed.

(** X9.  The text [normalize_german] returns holds no upper-case letter,
    none of ü, ö, ä, ß, no white space at either end, and is at most twice
    as long as its argument. *)
Theorem normalize_german_result (text : string) :
  let t := list_ascii_of_string (normalize_german text) in
  Forall plain_char t ∧ trimmed t ∧
  (length t ≤ 2 * String.length text)%nat.
Proof.
  unfold normalize_german. rewrite list_ascii_of_string_of_list_ascii.
  rewrite normalize_chars_flat_map. cbn zeta. split_and!.
  - apply Forall_forall. intros x Hx.
    apply list_elem_of_In, in_flat_map in Hx as (c & _ & Hx).
    pose proof (fold_lower_plain c) as Hc. rewrite Forall_forall in Hc.
    by apply Hc, list_elem_of_In.
  - apply fold_lower_trimmed, str_strip_trimmed.
  - etrans; [apply (flat_map_length_le _ 2), fold_lower_short|].
    pose proof (str_strip_length (list_ascii_of_string text)) as Hs.
    rewrite length_list_ascii_of_string in Hs. lia.
Qed.

(** *** What the comparison forgives *)

Lemma lower_char_twice c : lower_char (lower_char c) = lower_char c.
Proof. by_char c. Qed.

Lemma normalize_chars_lower t : normalize_chars (str_lower t) = normalize_chars t.
Proof.
  rewrite !normalize_chars_flat_map, str_strip_lower.
  unfold str_lower at 1. rewrite flat_map_map.
  apply flat_map_ext. intros c. by rewrite lower_char_twice.
Qed.

Lemma lstrip_spaces sp t : forallb isspace sp = true → lstrip (sp ++ t) = lstrip t.
Proof.
  induction sp as [|c sp IH]; [done|]. simpl.
  intros [Hc Hsp]%andb_true_iff. rewrite Hc. by apply IH.
Qed.

Lemma forallb_rev {A} (f : A → bool) (l : list A) :
  forallb f (rev l) = forallb f l.
Proof.
  induction l as [|x l IH]; [done|].
  simpl. rewrite forallb_app, IH. simpl. destruct (f x), (forallb f l); done.
Qed.

Lemma str_strip_spaces sp1 sp2 t :
  forallb isspace sp1 = true → forallb isspace sp2 = true →
  str_strip (sp1 ++ t ++ sp2) = str_strip t.
Proof.
  intros H1 H2. unfold str_strip. rewrite (lstrip_spaces sp1) by done.
  destruct (lstrip_suffix t) as [pre Hpre].
  destruct (decide (lstrip t = [])) as [Hnil|Hne].
  - assert (forallb isspace t = true) as Ht.
    { clear -Hnil. induction t as [|c t IH]; [done|]. simpl in *.
      destruct (isspace c); [by apply IH|done]. }
    rewrite Hnil.
    rewrite <- (app_nil_r sp2) at 1. rewrite app_assoc.
    rewrite (lstrip_spaces (t ++ sp2) []) by (by rewrite forallb_app, Ht, H2).
    done.
  - assert (lstrip (t ++ sp2) = lstrip t ++ sp2) as ->.
    { clear -Hne. induction t as [|c t IH]; [done|]. simpl in *.
      destruct (isspace c); [by apply IH|done]. }
    rewrite rev_app_distr, (lstrip_spaces (rev sp2)) by (by rewrite forallb_rev).
    done.
Qed.

Lemma fold_diacritic_space c :
  isspace c = true → fold_diacritic c = [c].
Proof. by_char c. Qed.

Lemma fold_diacritic_front c :
  isspace c = false → fold_diacritic c ≠ [] ∧ starts_clean (fold_diacritic c).
Proof. by_char c. Qed.

Lemma fold_diacritic_back c :
  isspace c = false →
  rev (fold_diacritic c) ≠ [] ∧ starts_clean (rev (fold_diacritic c)).
Proof. by_char c. Qed.

Lemma lstrip_flat_map (f : ascii → list ascii) t :
  (∀ c, isspace c = true → f c = [c]) →
  (∀ c, isspace c = false → f c ≠ [] ∧ starts_clean (f c)) →
  lstrip (flat_map f t) = flat_map f (lstrip t).
Proof.
  intros Hsp Hcl. induction t as [|c t IH]; [done|].
  cbn [flat_map lstrip]. destruct (isspace c) eqn:Hc.
  - rewrite (Hsp c Hc). simpl. by rewrite Hc.
  - destruct (Hcl c Hc) as [Hne Hst]. cbn [flat_map].
    destruct (f c) as [|x r]; [done|]. simpl in *. by rewrite Hst.
Qed.

Lemma str_strip_fallback t : str_strip (ascii_fallback t) = ascii_fallback (str_strip t).
Proof.
  unfold str_strip, ascii_fallback.
  rewrite lstrip_flat_map by (apply fold_diacritic_space || apply fold_diacritic_front).
  rewrite flat_map_rev.
  rewrite (lstrip_flat_map (λ x, rev (fold_diacritic x))).
  - rewrite flat_map_rev. apply flat_map_ext. intros c. apply rev_involutive.
  - intros c Hc. by rewrite fold_diacritic_space.
  - apply fold_diacritic_back.
Qed.

Lemma fold_after_fallback c :
  flat_map (λ x, fold_diacritic (lower_char x)) (fold_diacritic c) =
  fold_diacritic (lower_char c).
Proof. by_char c. Qed.

Lemma normalize_chars_fallback t :
  normalize_chars (ascii_fallback t) = normalize_chars t.
Proof.
  rewrite !normalize_chars_flat_map, str_strip_fallback.
  unfold ascii_fallback. rewrite flat_map_flat_map.
  apply flat_map_ext. intros c. apply fold_after_fallback.
Qed.

(** X10.  What the comparison of typed answers forgives: the letter case,
    white space typed before or after the word, and umlauts or ß typed as
    u, o, a, ss.  Each of these variants of a string matches the string
    itself. *)
Theorem matches_forgives (s : string) (sp1 sp2 : list ascii) :
  forallb isspace sp1 = true → forallb isspace sp2 = true →
  matches s s = true ∧
  matches (on_chars str_lower s) s = true ∧
  matches (on_chars (λ t, sp1 ++ t ++ sp2) s) s = true ∧
  matches (on_chars ascii_fallback s) s = true.
Proof.
  intros H1 H2. unfold matches, on_chars, normalize_german.
  rewrite !list_ascii_of_string_of_list_ascii.
  rewrite normalize_chars_lower, normalize_chars_fallback.
  assert (normalize_chars (sp1 ++ list_ascii_of_string s ++ sp2) =
          normalize_chars (list_ascii_of_string s)) as ->.
  { rewrite !normalize_chars_flat_map. by rewrite str_strip_spaces. }
  by rewrite String.eqb_refl.
Qed.

Lemma matches_forgives_witness :
  matches (on_chars (λ t, [" "%char] ++ t ++ [" "%char; "010"%char]) "Haus") "Haus" = true.
Proof.
  destruct (matches_forgives "Haus" [" "%char] [" "%char; "010"%char]) as (_ & _ & H & _);
    [reflexivity|reflexivity|].
  exact H.
Defined.
End NormalizeMore.

(** ** The streak over several days *)

Section StreakMore.
Implicit Types (d : date) (p : progress).

Lemma update_streak_today p today y :
  yesterday today = Some y →
  ∃ p', update_streak today today p = Some p' ∧
        last_played p' = isoformat today ∧
        xp p' = xp p ∧ best_speed p' = best_speed p ∧ words p' = words p.
Proof.
  intros Hy. unfold update_streak. rewrite Hy. simpl.
  destruct (String.eqb_spec (last_played p) (isoformat today)) as [Heq|_].
  - by exists p.
  - destruct (String.eqb (last_played p) (isoformat y));
      [|destruct (String.eqb (last_played p) "")]; by eexists.
Qed.

(** X11.  Starting the program a second time on the same day changes
    nothing: the second [update_streak] returns the document the first one
    produced, so a streak grows at most once per day. *)
Theorem update_streak_same_day_once p today y :
  yesterday today = Some y →
  ∃ p', update_streak today today p = Some p' ∧
        update_streak today today p' = Some p'.
Proof.
  intros Hy. destruct (update_streak_today p today y Hy) as (p' & Hrun & Hlast & _).
  exists p'. split; [done|]. unfold update_streak. by rewrite Hlast, String.eqb_refl.
Qed.

Lemma update_streak_same_day_once_witness :
  ∃ p', update_streak (Date 2024 3 1) (Date 2024 3 1) (Progress 40 6 "2024-02-29" 3 ∅) = Some p' ∧
        update_streak (Date 2024 3 1) (Date 2024 3 1) p' = Some p'.
Proof.
  apply (update_streak_same_day_once _ _ (Date 2024 2 29)). reflexivity.
Defined.

Lemma update_streak_next_day p d y :
  valid_date d → yesterday d = Some y → valid_date y → last_played p = isoformat y →
  update_streak d d p =
  Some (Progress (xp p) (streak p + 1) (isoformat d) (best_speed p) (words p)).
Proof.
  intros Hv Hy Hvy Hlast. unfold update_streak. rewrite Hy, Hlast.
  rewrite eqb_isoformat_neq; [|done|done|by apply date_lt_neq, yesterday_lt].
  unfold mbind, option_bind. cbv beta iota.
  rewrite String.eqb_refl. reflexivity.
Qed.

Lemma eqb_empty_isoformat d : String.eqb "" (isoformat d) = false.
Proof. reflexivity. Qed.

Lemma last_after {A} (rest : list A) : ∀ a z : A,
  List.last (a :: rest) z = List.last rest a.
Proof.
  induction rest as [|x rest IH]; intros a z; [done|].
  change (List.last (a :: x :: rest) z) with (List.last (x :: rest) z).
  by rewrite !IH.
Qed.

Lemma play_days_consecutive days : ∀ prev p,
  valid_date prev → last_played p = isoformat prev → consecutive prev days →
  ∃ p', play_days days p = Some p' ∧
        streak p' = streak p + len days ∧
        last_played p' = isoformat (List.last days prev) ∧
        xp p' = xp p ∧ words p' = words p.
Proof.
  induction days as [|d rest IH]; intros prev p Hvp Hlast Hcons.
  - exists p. unfold len. simpl. split_and!; (done || lia).
  - destruct Hcons as (Hv & Hy & Hrest). cbn [play_days].
    rewrite (update_streak_next_day p d prev Hv Hy Hvp Hlast).
    unfold mbind, option_bind. cbv beta iota.
    destruct (IH d (Progress (xp p) (streak p + 1) (isoformat d) (best_speed p) (words p)))
      as (p' & Hrun & Hstreak & Hlp & Hxp & Hw); [done|done|done|].
    exists p'. split; [done|]. rewrite Hstreak, Hlp. unfold len. simpl.
    split_and!; [lia| |done|done].
    f_equal. symmetry. exact (last_after rest d prev).
Qed.

(** X12.  Starting the program once on each of [k] consecutive days, from a
    document without a stored date, leaves a streak of exactly [k] and the
    last of those days as the stored date. *)
Theorem play_days_streak p d0 y0 rest :
  last_played p = "" → valid_date d0 → yesterday d0 = Some y0 → consecutive d0 rest →
  ∃ p', play_days (d0 :: rest) p = Some p' ∧
        streak p' = len (d0 :: rest) ∧
        last_played p' = isoformat (List.last rest d0).
Proof.
  intros Hlast Hv Hy Hcons. cbn [play_days].
  assert (update_streak d0 d0 p =
          Some (Progress (xp p) 1 (isoformat d0) (best_speed p) (words p))) as ->.
  { unfold update_streak. rewrite Hy, Hlast, eqb_empty_isoformat.
    unfold mbind, option_bind. cbv beta iota.
    rewrite eqb_empty_isoformat. reflexivity. }
  unfold mbind, option_bind. cbv beta iota.
  destruct (play_days_consecutive rest d0
              (Progress (xp p) 1 (isoformat d0) (best_speed p) (words p)))
    as (p' & Hrun & Hstreak & Hlp & _); [done|done|done|].
  exists p'. split; [done|]. rewrite Hstreak, Hlp. unfold len. simpl. split; [lia|done].
Qed.

Lemma play_days_streak_witness :
  ∃ p', play_days [Date 2024 2 28; Date 2024 2 29; Date 2024 3 1] fresh_progress = Some p' ∧
        streak p' = 3 ∧ last_played p' = "2024-03-01".
Proof.
  destruct (play_days_streak fresh_progress (Date 2024 2 28) (Date 2024 2 27)
              [Date 2024 2 29; Date 2024 3 1])
    as (p' & Hrun & Hs & Hl); [reflexivity|vm_compute; intuition discriminate|reflexivity| |].
  - vm_compute. intuition discriminate.
  - by exists p'.
Defined.

(** X13.  A stored date later than today (the clock was set back) and a
    stored text that is no date at all are treated like a gap: the streak
    restarts at 1 and today becomes the stored date. *)
Theorem update_streak_restart p today y :
  valid_date today → yesterday today = Some y →
  ((∃ d, valid_date d ∧ date_lt today d ∧ last_played p = isoformat d) ∨
   (∀ d, valid_date d → last_played p ≠ isoformat d)) →
  update_streak today today p =
  Some (Progress (xp p) 1 (isoformat today) (best_speed p) (words p)).
Proof.
  intros Hv Hy Hcase.
  pose proof (yesterday_valid _ _ Hv Hy) as Hvy.
  pose proof (yesterday_lt _ _ Hv Hy) as Hlt.
  assert (last_played p ≠ isoformat today ∧ last_played p ≠ isoformat y) as [H1 H2].
  { destruct Hcase as [(d & Hvd & Hd & ->)|Hnone].
    - split; intros Heq; apply isoformat_inj in Heq; try done; subst d.
      + exact (date_lt_neq _ _ Hd eq_refl).
      + exact (date_lt_neq y y (date_lt_trans _ _ _ Hlt Hd) eq_refl).
    - split; by apply Hnone. }
  unfold update_streak. rewrite Hy.
  apply String.eqb_neq in H1, H2. rewrite H1.
  unfold mbind, option_bind. cbv beta iota. rewrite H2.
  destruct (String.eqb (last_played p) ""); reflexivity.
Qed.

Lemma update_streak_restart_witness :
  update_streak (Date 2024 3 1) (Date 2024 3 1) (Progress 40 6 "2024-03-05" 3 ∅) =
  Some (Progress 40 1 "2024-03-01" 3 ∅).
Proof.
  assert (valid_date (Date 2024 3 1)) as Hv by (vm_compute; intuition discriminate).
  assert (valid_date (Date 2024 3 5)) as Hv' by (vm_compute; intuition discriminate).
  assert (date_lt (Date 2024 3 1) (Date 2024 3 5)) as Hlt by (unfold date_lt; simpl; lia).
  exact (update_streak_restart (Progress 40 6 "2024-03-05" 3 ∅) (Date 2024 3 1)
           (Date 2024 2 29) Hv eq_refl
           (or_introl (ex_intro _ (Date 2024 3 5) (conj Hv' (conj Hlt eq_refl))))).
Defined.
End StreakMore.

(** ** Type-it mode *)

Section TypeIt.
Variable E : env.
Variable inputs : nat → string.

Lemma type_question_spec category w W :
  let ok := matches (inputs (prompts W)) (de w) in
  type_question inputs category w W =
  Done ok (World (scored (doc W) category w ok 15)
             (Saved (scored (doc W) category w ok 15) :: Feedback ok :: Asked ::
                Question (en w) [] :: log W)
             (rng W) (ticks W) (S (prompts W))).
Proof.
  intros ok. unfold type_question, mbind, M_bind, emit, ask_text.
  cbn [doc log rng ticks prompts]. fold (matches (inputs (prompts W)) (de w)). fold ok.
  by rewrite score_answer_spec.
Qed.

Lemma type_loop_spec category questions : ∀ score W,
  ∃ score' W',
    type_loop inputs category questions score W = Done score' W' ∧
    length (saves (log W')) = (length (saves (log W)) + length questions)%nat ∧
    xp (doc W') = xp (doc W) + 15 * (score' - score) ∧
    0 <= score' - score <= len questions ∧
    (mastery_bounded (doc W) → mastery_bounded (doc W')) ∧
    best_speed (doc W') = best_speed (doc W).
Proof.
  induction questions as [|w rest IH]; intros score W.
  - exists score, W. unfold len. simpl. split_and!; (done || lia).
  - cbn [type_loop]. unfold mbind, M_bind. rewrite type_question_spec. cbn zeta.
    set (ok := matches _ _). set (W1 := World _ _ _ _ _).
    destruct (IH (if ok then score + 1 else score) W1)
      as (score' & W' & Hrun & Hsaves & Hxp & Hscore & Hb & Hbest).
    exists score', W'. split; [done|]. subst W1. cbn [doc log] in *.
    unfold len in *. cbn [length saves omap] in *. split_and!.
    + simpl in Hsaves. lia.
    + rewrite Hxp. unfold scored. destruct ok; simpl; lia.
    + destruct ok; lia.
    + destruct ok; lia.
    + intros Hp. by apply Hb, scored_bounded.
    + rewrite Hbest. apply scored_best_speed.
Qed.

(** X14.  Type-it mode accepts a typed answer exactly when it normalises to
    the same text as the German word, so the word typed as it is spelled is
    always accepted; an accepted answer earns 15 xp and moves the mastery to
    [min (m+1) 5], a rejected one earns nothing and moves it to
    [max (m-1) 0], and either way the document is written once.  A session
    runs on any non-empty list, a single word included, writes the document
    once per question and earns 15 xp per point; on an empty list it only
    prints its message. *)
Theorem type_it_scoring category words w W :
  (∃ ok W',
     type_question inputs category w W = Done ok W' ∧
     ok = matches (inputs (prompts W)) (de w) ∧
     (inputs (prompts W) = de w → ok = true) ∧
     saves (log W') = doc W' :: saves (log W) ∧
     xp (doc W') = xp (doc W) + (if ok then 15 else 0) ∧
     get_mastery (doc W') category (de w) =
       (if ok then Z.min (get_mastery (doc W) category (de w) + 1) 5
        else Z.max (get_mastery (doc W) category (de w) - 1) 0)) ∧
  (env_sound E → words ≠ [] → mastery_bounded (doc W) →
     ∃ score W',
       type_it_mode E inputs category words W = Done () W' ∧
       length (saves (log W')) =
         (length (saves (log W)) + Z.to_nat (Z.min 10 (len words)))%nat ∧
       xp (doc W') = xp (doc W) + 15 * score ∧
       0 <= score <= Z.min 10 (len words) ∧
       Report score (Z.min 10 (len words)) ∈ log W' ∧
       mastery_bounded (doc W')) ∧
  type_it_mode E inputs category [] W =
    Done () (World (doc W)
               (PressEnter :: Say "[red]No words in this category.[/red]" :: log W)
               (rng W) (ticks W) (prompts W)).
Proof.
  split_and!.
  - eexists _, _. split; [apply type_question_spec|]. cbn zeta. cbn [doc log saves omap].
    split; [done|]. split.
    { intros ->. unfold matches. apply String.eqb_refl. }
    split; [done|].
    unfold scored. destruct (matches _ _).
    + split; [done|].
      by rewrite get_mastery_set_xp, !get_mastery_entry_of, entry_of_record_answer.
    + split; [simpl; lia|].
      by rewrite !get_mastery_entry_of, entry_of_record_answer.
  - intros Hsound Hne Hp. unfold type_it_mode.
    destruct words as [|w0 ws] eqn:Hw; [done|]. rewrite <- Hw in *. clear Hw w0 ws.
    destruct (weighted_sample_spec E Hsound category words (Z.min 10 (len words)) W)
      as (questions & idxs & W1 & Hrun & Hn & _ & _ & Hdoc & Hlog);
      [done|done|unfold len; lia|].
    unfold mbind at 1, M_bind at 1. rewrite Hrun.
    destruct (type_loop_spec category questions 0 W1)
      as (score & W2 & Hloop & Hsaves & Hxp & Hscore & Hb & _).
    unfold mbind at 1, M_bind at 1. rewrite Hloop.
    eexists score, _. split; [reflexivity|]. simpl.
    rewrite Hsaves, Hxp, Hdoc, Hlog. unfold len in *. split_and!.
    + lia.
    + lia.
    + lia.
    + lia.
    + right. left.
    + apply Hb. by rewrite Hdoc.
  - reflexivity.
Qed.
End TypeIt.

Lemma type_it_scoring_witness :
  ∃ score W',
    type_it_mode demo_env sample_typist "animals" [Word "Hund" "dog"]
      (world0 fresh_progress) = Done () W' ∧
    xp (doc W') = 15 * score.
Proof.
  destruct (type_it_scoring demo_env sample_typist "animals" [Word "Hund" "dog"]
              (Word "Hund" "dog") (world0 fresh_progress))
    as (_ & H & _).
  destruct (H demo_env_sound ltac:(done) fresh_progress_bounded)
    as (score & W' & Hrun & _ & Hxp & _).
  exists score, W'. split; [exact Hrun|]. rewrite Hxp. reflexivity.
Defined.

(** Two words, typed in other letter case and with spaces around: both
    accepted. *)
Example type_it_two_words :
  ∃ W', type_it_mode demo_env sample_typist "animals"
          [Word "Hund" "dog"; Word "Katze" "cat"] (world0 fresh_progress) = Done () W' ∧
        xp (doc W') = 30 ∧ get_mastery (doc W') "animals" "Katze" = 1 ∧
        length (saves (log W')) = 2%nat.
Proof. eexists. by vm_compute. Qed.

(** ** Learn mode *)

Section Learn.
Variable E : env.
Variable inputs : nat → string.

Ltac run_prim :=
  eapply wlp_done; [reflexivity|]; cbn beta; cbn [doc log rng ticks prompts].
Ltac run_bind := apply wlp_bind.

(** The draw loop and the sampler read the document and the random module
    and nothing else. *)
Lemma sample_loop_frame words n fuel : ∀ attempts chosen result W,
  wlp (sample_loop E words n fuel attempts chosen result)
    (λ _ W', doc W' = doc W ∧ log W' = log W ∧ prompts W' = prompts W ∧
             ticks W' = ticks W) W.
Proof.
  induction fuel as [|fuel IH]; intros attempts chosen result W; cbn [sample_loop].
  - destruct (_ && _); [apply wlp_out_of_fuel|by apply wlp_ret].
  - destruct (_ && _); [|by apply wlp_ret].
    run_bind. run_prim.
    destruct (decide _).
    + eapply wlp_mono; [apply IH|]. by cbn.
    + destruct (words !! _); [|apply wlp_raise].
      eapply wlp_mono; [apply IH|]. by cbn.
Qed.

Lemma weighted_sample_frame category words n W :
  wlp (weighted_sample E category words n)
    (λ _ W', doc W' = doc W ∧ log W' = log W ∧ prompts W' = prompts W ∧
             ticks W' = ticks W) W.
Proof.
  unfold weighted_sample. destruct words as [|w0 ws]; [by apply wlp_ret|].
  run_bind. run_prim.
  destruct (_ =? 0); [apply wlp_raise|].
  run_bind. eapply wlp_mono; [apply sample_loop_frame|]. cbn beta.
  intros r W1 (Hdoc & Hlog & Hpr & Htk).
  destruct (_ <? _); [|by apply wlp_ret].
  run_bind. eapply wlp_done; [reflexivity|]. cbn beta.
  by apply wlp_ret.
Qed.

(** *** Touching a record *)

Lemma touch_lookup p category de_word key :
  default new_entry (words (touch p category de_word) !! key) =
  default new_entry (words p !! key).
Proof.
  unfold touch. destruct (words p !! get_word_key category de_word) eqn:Hk; [done|].
  cbn [words set_words].
  destruct (decide (get_word_key category de_word = key)) as [<-|Hne].
  - by rewrite lookup_insert_eq, Hk.
  - by rewrite lookup_insert_ne.
Qed.

Lemma touch_learned_count p category de_word :
  words_learned_count (touch p category de_word) = words_learned_count p.
Proof.
  unfold touch. destruct (words p !! get_word_key category de_word) eqn:Hk; [done|].
  rewrite !words_learned_count_size, learned_records_insert, learned_records_lookup, Hk.
  rewrite decide_False by (by intros [? ?]).
  rewrite decide_False by (simpl; lia). lia.
Qed.

Lemma touch_bounded p category de_word :
  mastery_bounded p → mastery_bounded (touch p category de_word).
Proof.
  intros Hp. unfold touch.
  destruct (words p !! get_word_key category de_word) eqn:Hk; [done|].
  unfold mastery_bounded. cbn [words set_words].
  apply map_Forall_insert_2; [simpl; lia|done].
Qed.

Lemma touch_same_standing p category de_word : same_standing p (touch p category de_word).
Proof.
  unfold same_standing. split_and!;
    try (unfold touch; by destruct (words p !! get_word_key category de_word)).
  - intros key. apply touch_lookup.
  - apply touch_learned_count.
Qed.

Lemma same_standing_refl p : same_standing p p.
Proof. by unfold same_standing. Qed.

Lemma same_standing_trans p1 p2 p3 :
  same_standing p1 p2 → same_standing p2 p3 → same_standing p1 p3.
Proof.
  intros (A1 & A2 & A3 & A4 & A5 & A6) (B1 & B2 & B3 & B4 & B5 & B6).
  unfold same_standing.
  split_and!; first [congruence | intros key; by rewrite B5, A5].
Qed.

Lemma learn_loop_steady category ordered fuel : ∀ idx revealed W,
  wlp (learn_loop inputs category ordered fuel idx revealed)
    (λ _ W', same_standing (doc W) (doc W') ∧ saves (log W') = saves (log W) ∧
             rng W' = rng W ∧
             (mastery_bounded (doc W) → mastery_bounded (doc W'))) W.
Proof.
  induction fuel as [|fuel IH]; intros idx revealed W; [apply wlp_out_of_fuel|].
  cbn [learn_loop]. destruct (py_index ordered idx) as [w|]; [|apply wlp_raise].
  run_bind. run_prim.
  run_bind. destruct revealed.
  - run_prim. run_bind. eapply wlp_done; [reflexivity|]. cbn beta.
    cbn [doc log rng ticks prompts].
    destruct (String.eqb _ "q"); [apply wlp_ret; by split_and!; [apply same_standing_refl|..]|].
    destruct (String.eqb _ "n").
    + run_bind. run_prim. run_bind. run_prim.
      eapply wlp_mono; [apply IH|]. cbn beta. cbn [doc log rng].
      intros _ W' (Hs & Hsv & Hr & Hb). split_and!; [|done|done|].
      * eapply same_standing_trans; [apply touch_same_standing|exact Hs].
      * intros Hp. by apply Hb, touch_bounded.
    + destruct (String.eqb _ "p");
        (eapply wlp_mono; [apply IH|]); cbn beta; cbn [doc log rng]; done.
  - run_prim. run_bind. eapply wlp_done; [reflexivity|]. cbn beta.
    cbn [doc log rng ticks prompts].
    destruct (String.eqb _ "q"); [apply wlp_ret; by split_and!; [apply same_standing_refl|..]|].
    destruct (String.eqb _ "n").
    + run_bind. run_prim. run_bind. run_prim.
      eapply wlp_mono; [apply IH|]. cbn beta. cbn [doc log rng].
      intros _ W' (Hs & Hsv & Hr & Hb). split_and!; [|done|done|].
      * eapply same_standing_trans; [apply touch_same_standing|exact Hs].
      * intros Hp. by apply Hb, touch_bounded.
    + destruct (String.eqb _ "p");
        (eapply wlp_mono; [apply IH|]); cbn beta; cbn [doc log rng]; done.
Qed.

(** Learn mode leaves the standing of the learner alone. *)
Lemma learn_mode_steady fuel category words W :
  wlp (learn_mode E inputs fuel category words)
    (λ _ W', same_standing (doc W) (doc W') ∧
             (∀ c w, get_mastery (doc W') c w = get_mastery (doc W) c w) ∧
             saves (log W') = saves (log W) ∧
             (mastery_bounded (doc W) → mastery_bounded (doc W'))) W.
Proof.
  assert (∀ p p', same_standing p p' →
            ∀ c w, get_mastery p' c w = get_mastery p c w) as Hget.
  { intros p p' (_ & _ & _ & _ & Hk & _) c w.
    rewrite !get_mastery_entry_of. unfold entry_of. by rewrite Hk. }
  unfold learn_mode. destruct words as [|w0 ws].
  { eapply wlp_done; [reflexivity|]. cbn [doc log saves omap].
    split_and!; [apply same_standing_refl|done..]. }
  run_bind. eapply wlp_mono; [apply weighted_sample_frame|]. cbn beta.
  intros ordered W1 (Hdoc & Hlog & _ & _).
  eapply wlp_mono; [apply learn_loop_steady|]. cbn beta.
  rewrite Hdoc, Hlog. intros _ W' (Hs & Hsv & _ & Hb).
  split_and!; [done| |done|done]. by apply Hget.
Qed.

(** X15.  Learn mode never scores: whatever the learner does, when it
    returns the xp, the streak, the stored date and the personal best are
    those of the start, every record reads as before (a record created by
    "next" is the fresh record with mastery 0 and zero counters), the number
    of learned words is unchanged, and [save_progress] was not called. *)
Theorem learn_mode_never_scores fuel category words W :
  wlp (learn_mode E inputs fuel category words)
    (λ _ W', same_standing (doc W) (doc W') ∧
             (∀ c w, get_mastery (doc W') c w = get_mastery (doc W) c w) ∧
             saves (log W') = saves (log W) ∧
             (mastery_bounded (doc W) → mastery_bounded (doc W'))) W.
Proof. apply learn_mode_steady. Qed.


Lemma next_card_range n idx : 0 <= idx < n → 0 <= next_card n idx < n.
Proof. intros H. unfold next_card. apply Z.mod_pos_bound. lia. Qed.

Lemma prev_card_range n idx : 0 <= idx < n → 0 <= prev_card n idx < n.
Proof. intros H. unfold prev_card. apply Z.mod_pos_bound. lia. Qed.



(** X17.  Browsing wraps around: "next" and "previous" undo each other,
    "next" on the last card shows the first, "previous" on the first shows
    the last, and "next" pressed as many times as there are cards comes
    back to the card it started from. *)
Theorem card_navigation (n idx : Z) :
  0 <= idx < n →
  prev_card n (next_card n idx) = idx ∧
  next_card n (prev_card n idx) = idx ∧
  next_card n (n - 1) = 0 ∧
  prev_card n 0 = n - 1 ∧
  Nat.iter (Z.to_nat n) (next_card n) idx = idx.
Proof.
  intros Hidx.
  assert (∀ i, 0 <= i < n → next_card n i = if i + 1 <? n then i + 1 else 0) as Hnext.
  { intros i Hi. unfold next_card. destruct (Z.ltb_spec (i + 1) n).
    - apply Z.mod_small. lia.
    - replace (i + 1) with n by lia. apply Z_mod_same_full. }
  assert (∀ i, 0 <= i < n → prev_card n i = if i =? 0 then n - 1 else i - 1) as Hprev.
  { intros i Hi. unfold prev_card. destruct (Z.eqb_spec i 0) as [->|Hne].
    - symmetry. apply (Z.mod_unique _ _ (-1)); lia.
    - apply Z.mod_small. lia. }
  split_and!.
  - rewrite Hprev, Hnext by (done || by apply next_card_range).
    destruct (Z.ltb_spec (idx + 1) n); [destruct (Z.eqb_spec (idx + 1) 0)|]; simpl; lia.
  - rewrite Hnext, Hprev by (done || by apply prev_card_range).
    destruct (Z.eqb_spec idx 0); [destruct (Z.ltb_spec (n - 1 + 1) n)|
                                  destruct (Z.ltb_spec (idx - 1 + 1) n)]; lia.
  - rewrite Hnext by lia. destruct (Z.ltb_spec (n - 1 + 1) n); lia.
  - rewrite Hprev by lia. done.
  - assert (∀ k, Nat.iter k (next_card n) idx = (idx + Z.of_nat k) mod n) as Hiter.
    { induction k as [|k IH].
      - simpl. rewrite Z.add_0_r. symmetry. by apply Z.mod_small.
      - cbn [Nat.iter nat_rect]. change (nat_rect _ idx (λ _, next_card n) k)
          with (Nat.iter k (next_card n) idx).
        rewrite IH. unfold next_card. rewrite Zplus_mod_idemp_l. f_equal. lia. }
    rewrite Hiter, Z2Nat.id by lia.
    rewrite <- (Z.mul_1_l n) at 1. rewrite Z.mod_add by lia. by apply Z.mod_small.
Qed.
End Learn.


Lemma card_navigation_witness : Nat.iter 5 (next_card 5) 3 = 3.
Proof.
  destruct (card_navigation 5 3) as (_ & _ & _ & _ & H); [lia|]. exact H.
Defined.

(** Three cards turned and one turned back: two records are created, with
    mastery 0, and nothing is written to disk. *)
Example learn_mode_browse :
  ∃ W', learn_mode demo_env sample_browser 5 "animals" zoo (world0 fresh_progress)
        = Done () W' ∧
        map_to_list (words (doc W')) =
          [("animals:Katze", Entry 0 0 0); ("animals:Hund", Entry 0 0 0)] ∧
        saves (log W') = [] ∧ xp (doc W') = 0.
Proof. eexists. by vm_compute. Qed.

(** ** What every practice mode preserves *)

Section Modes.
Variable E : env.

Ltac run_prim :=
  eapply wlp_done; [reflexivity|]; cbn beta; cbn [doc log rng ticks prompts].
Ltac run_bind := apply wlp_bind.

Lemma grows_refl W : grows W W.
Proof. unfold grows. split_and!; (done || lia). Qed.

Lemma grows_trans W1 W2 W3 : grows W1 W2 → grows W2 W3 → grows W1 W3.
Proof.
  intros (A1 & A2 & A3 & A4 & A5) (B1 & B2 & B3 & B4 & B5).
  unfold grows. split_and!; [lia|lia|congruence|congruence|auto].
Qed.

Lemma grows_same_doc W W' : doc W' = doc W → grows W W'.
Proof. intros H. unfold grows. rewrite H. split_and!; (done || lia). Qed.

Lemma grows_scored W W' category w ok award :
  0 <= award → doc W' = scored (doc W) category w ok award → grows W W'.
Proof.
  intros Ha H. unfold grows. rewrite H. split_and!.
  - unfold scored. destruct ok; simpl; lia.
  - rewrite scored_best_speed. lia.
  - by destruct ok.
  - by destruct ok.
  - apply scored_bounded.
Qed.

Lemma score_answer_grows category w ok award W :
  0 <= award → wlp (score_answer category w ok award) (λ _ W', grows W W') W.
Proof.
  intros Ha. eapply wlp_done; [apply score_answer_spec|].
  by apply (grows_scored _ _ category w ok award).
Qed.

Lemma quiz_choices_frame field words correct_answer W :
  wlp (quiz_choices E field words correct_answer) (λ _ W', doc W' = doc W) W.
Proof.
  unfold quiz_choices. run_bind. run_prim. run_bind. run_prim.
  destruct (_ <? 2); by apply wlp_ret.
Qed.

Lemma quiz_question_grows category words qi w W :
  wlp (quiz_question E category words qi w) (λ _ W', grows W W') W.
Proof.
  unfold quiz_question. run_bind.
  eapply wlp_mono; [apply quiz_choices_frame|]. cbn beta. intros choices W1 Hdoc.
  run_bind. run_prim. run_bind. run_prim.
  destruct (py_index _ _); [|apply wlp_raise].
  run_bind. eapply wlp_mono; [apply score_answer_grows; lia|]. cbn beta.
  intros _ W2 Hg. apply wlp_ret.
  eapply grows_trans; [|exact Hg]. apply grows_same_doc. by cbn [doc].
Qed.

Lemma quiz_loop_grows category words questions : ∀ qi score W,
  wlp (quiz_loop E category words qi questions score) (λ _ W', grows W W') W.
Proof.
  induction questions as [|w rest IH]; intros qi score W; cbn [quiz_loop].
  - apply wlp_ret, grows_refl.
  - run_bind. eapply wlp_mono; [apply quiz_question_grows|]. cbn beta.
    intros ok W1 Hg. eapply wlp_mono; [apply IH|]. cbn beta.
    intros _ W' Hg'. by eapply grows_trans.
Qed.

Lemma type_loop_grows inputs category questions : ∀ score W,
  wlp (type_loop inputs category questions score) (λ _ W', grows W W') W.
Proof.
  induction questions as [|w rest IH]; intros score W; cbn [type_loop].
  - apply wlp_ret, grows_refl.
  - run_bind. eapply wlp_done; [apply type_question_spec|]. cbn beta zeta.
    eapply wlp_mono; [apply IH|]. cbn beta.
    intros _ W' Hg'. eapply grows_trans; [|exact Hg'].
    eapply grows_scored; [|reflexivity]. lia.
Qed.

Lemma saves_saved p (l : list event) : saves (Saved p :: l) = p :: saves l.
Proof. done. Qed.

Lemma saves_other ev (l : list event) :
  (∀ p, ev ≠ Saved p) → saves (ev :: l) = saves l.
Proof. intros H. destruct ev; try done. by destruct (H p). Qed.

(** The accounts of the loop of a speed round. *)
Lemma speed_loop_account category words fuel : ∀ start score total W,
  wlp (speed_loop E category words fuel start score total)
    (λ r W', grows W W' ∧ best_speed (doc W') = best_speed (doc W) ∧
             xp (doc W') = xp (doc W) + 5 * (r.1 - score) ∧
             0 <= r.1 - score ∧
             r.1 - score <= len (saves (log W')) - len (saves (log W)) ∧
             len (saves (log W')) - len (saves (log W)) <= r.2 - total) W.
Proof.
  induction fuel as [|fuel IH]; intros start score total W; [apply wlp_out_of_fuel|].
  cbn [speed_loop].
  assert (∀ W1, doc W1 = doc W → saves (log W1) = saves (log W) → ∀ t, total <= t →
            wlp (mret (score, t))
              (λ r W', grows W W' ∧ best_speed (doc W') = best_speed (doc W) ∧
                       xp (doc W') = xp (doc W) + 5 * (r.1 - score) ∧
                       0 <= r.1 - score ∧
                       r.1 - score <= len (saves (log W')) - len (saves (log W)) ∧
                       len (saves (log W')) - len (saves (log W)) <= r.2 - total) W1) as Hstop.
  { intros W1 Hdoc Hsv t Ht. apply wlp_ret. cbn [fst snd]. rewrite Hdoc, Hsv.
    split_and!; [by apply grows_same_doc|done|lia|lia|lia|lia]. }
  run_bind. run_prim.
  destruct (_ <=? 0); [apply Hstop; (done || lia)|].
  run_bind. run_prim.
  run_bind. apply wlp_random_choices. intros w.
  run_bind. run_prim.
  run_bind. run_prim.
  run_bind. run_prim.
  run_bind. run_prim.
  run_bind. run_prim.
  destruct (duration <=? _); [apply Hstop; (done || lia)|].
  run_bind. run_prim.
  run_bind. run_prim.
  destruct (duration <=? _); [apply Hstop; (done || lia)|].
  set (ok := String.eqb _ _).
  run_bind. eapply wlp_done; [apply score_answer_spec|]. cbn beta.
  eapply wlp_mono; [apply IH|]. cbn beta. cbn [doc log].
  intros r W' (Hg & Hbest & Hxp & H0 & Hlo & Hhi).
  rewrite saves_saved, !saves_other in Hlo, Hhi by done.
  unfold len in *. cbn [length] in Hlo, Hhi. cbn [fst snd] in *.
  split_and!.
  - eapply grows_trans; [|exact Hg]. eapply grows_scored; [|reflexivity]. lia.
  - rewrite Hbest. apply scored_best_speed.
  - rewrite Hxp. unfold scored. destruct ok; simpl; lia.
  - destruct ok; lia.
  - destruct ok; lia.
  - lia.
Qed.

(** X18.  The panel at the end of a speed round tells the truth: the xp
    added during the round is 5 times the reported score, the score is at
    most the number of items attempted, the personal best becomes the larger
    of the old best and the score, and the document was written at least
    once per point and at most once per item plus once for a new best. *)
Theorem speed_round_accounting fuel category words W :
  2 <= len words →
  wlp (speed_round E fuel category words)
    (λ _ W', ∃ score total evs,
       log W' = PressEnter :: Report score total :: evs ∧
       xp (doc W') = xp (doc W) + 5 * score ∧
       0 <= score <= total ∧
       best_speed (doc W') = Z.max (best_speed (doc W)) score ∧
       score <= len (saves (log W')) - len (saves (log W)) <= total + 1) W.
Proof.
  intros Hlen. unfold speed_round. destruct (Z.ltb_spec (len words) 2); [lia|].
  run_bind. run_prim. run_bind. run_prim.
  run_bind. eapply wlp_mono; [apply speed_loop_account|]. cbn beta. cbn [doc log].
  intros [score total] W1 (_ & Hbest & Hxp & H0 & Hlo & Hhi) [] W' Hfin.
  cbn [fst snd] in *. rewrite saves_other in Hlo, Hhi by done.
  rewrite speed_finish_spec in Hfin. injection Hfin as <-.
  exists score, total.
  destruct (Z.ltb_spec (best_speed (doc W1)) score) as [Hnew|Hold]; eexists;
    (split; [reflexivity|]); cbn [doc log set_best_speed xp best_speed];
    rewrite !saves_other by done; rewrite ?saves_saved; rewrite Hxp;
    unfold len in *; cbn [length]; split_and!; lia.
Qed.

Lemma learn_mode_only_adds inputs fuel category words W :
  wlp (learn_mode E inputs fuel category words) (λ _ W', grows W W') W.
Proof.
  eapply wlp_mono; [apply learn_mode_steady|]. cbn beta.
  intros _ W' ((Hxp & Hst & Hlp & Hbs & _) & _ & _ & Hb).
  unfold grows. split_and!; (done || lia).
Qed.

Lemma quiz_mode_only_adds category words W :
  wlp (quiz_mode E category words) (λ _ W', grows W W') W.
Proof.
  unfold quiz_mode. destruct (_ <? 2).
  { eapply wlp_done; [reflexivity|]. by apply grows_same_doc. }
  run_bind. eapply wlp_mono; [apply weighted_sample_frame|]. cbn beta.
  intros questions W1 (Hdoc & _).
  run_bind. eapply wlp_mono; [apply quiz_loop_grows|]. cbn beta.
  intros score W2 Hg. eapply wlp_done; [reflexivity|].
  eapply grows_trans; [apply grows_same_doc, Hdoc|].
  eapply grows_trans; [exact Hg|]. by apply grows_same_doc.
Qed.

Lemma type_it_mode_only_adds inputs category words W :
  wlp (type_it_mode E inputs category words) (λ _ W', grows W W') W.
Proof.
  unfold type_it_mode. destruct words as [|w0 ws].
  { eapply wlp_done; [reflexivity|]. by apply grows_same_doc. }
  run_bind. eapply wlp_mono; [apply weighted_sample_frame|]. cbn beta.
  intros questions W1 (Hdoc & _).
  run_bind. eapply wlp_mono; [apply type_loop_grows|]. cbn beta.
  intros score W2 Hg. eapply wlp_done; [reflexivity|].
  eapply grows_trans; [apply grows_same_doc, Hdoc|].
  eapply grows_trans; [exact Hg|]. by apply grows_same_doc.
Qed.

Lemma speed_round_only_adds fuel category words W :
  wlp (speed_round E fuel category words) (λ _ W', grows W W') W.
Proof.
  unfold speed_round. destruct (_ <? 2).
  { eapply wlp_done; [reflexivity|]. by apply grows_same_doc. }
  run_bind. run_prim. run_bind. run_prim.
  run_bind. eapply wlp_mono; [apply speed_loop_account|]. cbn beta.
  intros r W1 (Hg & _) [] W' Hfin.
  rewrite speed_finish_spec in Hfin. injection Hfin as <-.
  eapply grows_trans; [apply (grows_same_doc W (World (doc W) (Ready :: log W)
                                 (rng W) (S (ticks W)) (prompts W))); done|].
  eapply grows_trans; [exact Hg|].
  destruct (Z.ltb_spec (best_speed (doc W1)) r.1); [|by apply grows_same_doc].
  unfold grows, mastery_bounded. cbn [doc set_best_speed xp best_speed streak last_played].
  split_and!; (done || lia).
Qed.

(** X19.  No practice mode takes anything away: whenever learn, quiz,
    type-it or speed mode returns, the xp and the personal best are at least
    what they were, the streak and the stored date are untouched, and
    mastery values that were all in [0,5] still are. *)
Theorem modes_only_add inputs fuel category words W :
  wlp (learn_mode E inputs fuel category words) (λ _ W', grows W W') W ∧
  wlp (quiz_mode E category words) (λ _ W', grows W W') W ∧
  wlp (type_it_mode E inputs category words) (λ _ W', grows W W') W ∧
  wlp (speed_round E fuel category words) (λ _ W', grows W W') W.
Proof.
  split_and!;
    [apply learn_mode_only_adds|apply quiz_mode_only_adds
    |apply type_it_mode_only_adds|apply speed_round_only_adds].
Qed.
End Modes.

Lemma speed_round_accounting_witness :
  ∃ W', speed_round stuck_env 9 "animals" zoo (world0 fresh_progress) = Done () W' ∧
        ∃ score total evs, log W' = PressEnter :: Report score total :: evs ∧
                           xp (doc W') = 5 * score.
Proof.
  destruct (speed_round stuck_env 9 "animals" zoo (world0 fresh_progress))
    as [[] W'| |] eqn:Hrun; [|by vm_compute in Hrun..].
  exists W'. split; [reflexivity|].
  destruct (speed_round_accounting stuck_env 9 "animals" zoo (world0 fresh_progress)
              ltac:(vm_compute; discriminate) () W' Hrun)
    as (score & total & evs & Hlog & Hxp & _).
  exists score, total, evs. split; [exact Hlog|]. rewrite Hxp. reflexivity.
Defined.

(** ** The answer of a speed-round item *)


(** ** All categories at once *)

(** X21.  The merged list of "All Categories" holds the words of the
    categories of [CATEGORIES], in that order and with repeats kept, each
    tagged with the category it was loaded from; whatever the fallback map
    holds, the category used for such a word is its tag, a name without a
    colon, so its record is the one the category's own modes use. *)
Theorem merge_all_tags (vocab : gmap string (list word)) :
  map entry_word (merge_all vocab) =
    flat_map (λ cat, default [] (vocab !! cat)) CATEGORIES ∧
  (∀ tw, tw ∈ merge_all vocab →
     ∃ cat, cat ∈ CATEGORIES ∧ entry_word tw ∈ default [] (vocab !! cat) ∧
            category_tag tw = Some cat ∧ has_colon cat = false ∧
            ∀ cat_map p,
              _get_cat tw cat_map = cat ∧
              get_mastery p (_get_cat tw cat_map) (de (entry_word tw)) =
                mastery (entry_of p cat (de (entry_word tw)))) ∧
  (∀ cat w, cat ∈ CATEGORIES → w ∈ default [] (vocab !! cat) →
     Tagged w (Some cat) ∈ merge_all vocab) ∧
  (merge_all vocab = [] ↔ ∀ cat, cat ∈ CATEGORIES → default [] (vocab !! cat) = []).
Proof.
  unfold merge_all. generalize CATEGORIES_colon_free.
  generalize CATEGORIES as cats. intros cats Hfree.
  split_and!.
  - induction cats as [|c cats IH]; [done|]. cbn [flat_map].
    rewrite map_app, IH.
    + f_equal. rewrite map_map. cbn [entry_word]. apply map_id.
    + intros x Hx. apply Hfree. by right.
  - intros tw Htw. apply list_elem_of_In, in_flat_map in Htw as (cat & Hcat & Htw).
    apply in_map_iff in Htw as (w & <- & Hw).
    exists cat. cbn [entry_word category_tag].
    split_and!; [by apply list_elem_of_In|by apply list_elem_of_In|done| |].
    + apply Hfree. by apply list_elem_of_In.
    + intros cat_map p. split; [done|]. unfold _get_cat. cbn [category_tag entry_word].
      apply get_mastery_entry_of.
  - intros cat w Hcat Hw. apply list_elem_of_In, in_flat_map.
    exists cat. split; [by apply list_elem_of_In|].
    apply in_map_iff. exists w. split; [done|by apply list_elem_of_In].
  - clear Hfree. induction cats as [|c cats IH].
    + split; [|done]. intros _ cat Hcat. by apply elem_of_nil in Hcat.
    + cbn [flat_map]. split.
      * intros [H1 H2]%app_eq_nil cat [->|Hcat]%elem_of_cons.
        -- by destruct (default [] (vocab !! c)).
        -- by apply IH.
      * intros H. rewrite (H c) by left. cbn [map app]. apply IH.
        intros cat Hcat. apply H. by right.
Qed.


Lemma merge_all_tags_witness :
  Tagged (Word "Montag" "Monday") (Some "days") ∈ merge_all sample_vocab.
Proof.
  destruct (merge_all_tags sample_vocab) as (_ & _ & H & _).
  apply H.
  - unfold CATEGORIES. right. left.
  - vm_compute. left.
Defined.

(** ** The quiz over all categories *)

Section QuizAll.
Variable E : env.
Hypothesis E_sound : env_sound E.

(** The draw loop returns distinct positions, at least one when one is
    asked for, and leaves the world alone but for the random state. *)
Lemma draw_loop_spec words n : words ≠ [] →
  ∀ fuel attempts chosen questions idxs W,
    n * 20 - attempts <= Z.of_nat fuel → 0 <= attempts →
    NoDup idxs → (∀ i, i ∈ chosen ↔ i ∈ idxs) →
    Forall2 (λ i w, words !! i = Some w) idxs questions → len questions <= n →
    (0 < attempts → questions ≠ []) →
    ∃ chosen' questions' idxs' W',
      draw_loop E words n fuel attempts chosen questions W = Done (chosen', questions') W' ∧
      doc W' = doc W ∧ log W' = log W ∧ prompts W' = prompts W ∧ ticks W' = ticks W ∧
      NoDup idxs' ∧ Forall2 (λ i w, words !! i = Some w) idxs' questions' ∧
      len questions' <= n ∧ (1 <= n → questions' ≠ []).
Proof.
  intros Hne. destruct E_sound as (Hidx & _ & _).
  induction fuel as [|fuel IH];
    intros attempts chosen questions idxs W Hf Ha Hnd Hch Hpick Hlen Hsome.
  - simpl. destruct (Z.ltb_spec (len questions) n) as [H1|H1]; simpl;
      [destruct (Z.ltb_spec attempts (n * 20)) as [H2|H2]; [lia|]|];
      eexists _, _, idxs, _; split_and!; try done.
    + intros Hn. apply Hsome. lia.
    + intros Hn Hq. subst questions. unfold len in H1. simpl in H1. lia.
  - simpl. destruct (Z.ltb_spec (len questions) n) as [H1|H1]; simpl;
      [destruct (Z.ltb_spec attempts (n * 20)) as [H2|H2]|].
    + unfold mbind, M_bind, random_index. simpl.
      set (idx := rand_index E (rng W) (length words)).
      set (W1 := World _ _ _ _ _).
      assert (idx < length words)%nat as Hlt.
      { apply Hidx. destruct words; [done|simpl; lia]. }
      destruct (decide (idx ∈ chosen)) as [Hin|Hnin].
      * edestruct (IH (attempts + 1) chosen questions idxs W1)
          as (c' & q' & i' & W' & ? & ?); [lia|lia|done..| |by eexists c', q', i', W'].
        intros _ ->. apply Hch in Hin. inversion Hpick. subst.
        by apply elem_of_nil in Hin.
      * destruct (lookup_lt_is_Some_2 words idx Hlt) as [wd Hwd]. rewrite Hwd.
        edestruct (IH (attempts + 1) ({[idx]} ∪ chosen) (questions ++ [wd]) (idxs ++ [idx]) W1)
          as (c' & q' & i' & W' & ? & ?).
        -- lia.
        -- lia.
        -- apply NoDup_app. split_and!; [done| |apply NoDup_singleton].
           intros x Hx ->%list_elem_of_singleton. by apply Hnin, Hch.
        -- intros i. rewrite elem_of_union, elem_of_singleton, elem_of_app,
             list_elem_of_singleton, Hch. tauto.
        -- apply Forall2_app; [done|]. by constructor.
        -- unfold len in *. rewrite length_app. simpl. lia.
        -- intros _. by destruct questions.
        -- by eexists c', q', i', W'.
    + eexists _, _, idxs, _; split_and!; try done. intros Hn. apply Hsome. lia.
    + eexists _, _, idxs, _; split_and!; try done.
      intros Hn Hq. subst questions. unfold len in H1. simpl in H1. lia.
Qed.

(** When every draw gives the first position, the loop stops with that one
    word, however many were asked for. *)
Lemma draw_loop_constant words n w0 :
  words !! 0%nat = Some w0 → (∀ k m, rand_index E k m = 0%nat) →
  ∀ fuel attempts W,
    n * 20 - attempts <= Z.of_nat fuel →
    ∃ W', draw_loop E words n fuel attempts {[0%nat]} [w0] W = Done ({[0%nat]}, [w0]) W'.
Proof.
  intros Hw0 Hconst.
  induction fuel as [|fuel IH]; intros attempts W Hf.
  - simpl. destruct (Z.ltb_spec (len [w0]) n) as [H1|H1]; simpl;
      [destruct (Z.ltb_spec attempts (n * 20)) as [H2|H2]; [lia|]|]; by eexists.
  - simpl. destruct (Z.ltb_spec (len [w0]) n) as [H1|H1]; simpl;
      [destruct (Z.ltb_spec attempts (n * 20)) as [H2|H2]|]; try by eexists.
    unfold mbind, M_bind, random_index. simpl. rewrite Hconst.
    destruct (decide (0%nat ∈ ({[0%nat]} : gset nat))) as [_|Hn];
      [|exfalso; apply Hn; by apply elem_of_singleton].
    apply IH. lia.
Qed.

(** The choices of one question, without the padding of [quiz_mode]. *)
Lemma quiz_all_choices_run field words correct_answer W :
  let wrong_pool :=
    map (λ tw, field (entry_word tw))
        (filter (λ tw, field (entry_word tw) ≠ correct_answer) words) in
  ∃ sh choices,
    quiz_all_choices E field words correct_answer W =
      Done choices (World (doc W) (log W) (S (S (rng W))) (ticks W) (prompts W)) ∧
    Permutation sh wrong_pool ∧
    Permutation choices (correct_answer :: take 3 sh).
Proof.
  intros wrong_pool. unfold quiz_all_choices. fold wrong_pool.
  destruct (random_shuffle_spec E E_sound wrong_pool W) as (sh & Hsh & Hperm).
  unfold mbind at 1, M_bind at 1. rewrite Hsh.
  set (W1 := World _ _ _ _ _).
  destruct (random_shuffle_spec E E_sound (correct_answer :: take 3 sh) W1)
    as (ch & Hch & Hperm2).
  rewrite Hch. by exists sh, ch.
Qed.

(** X23.  The choices of a question of the quiz over all categories: the
    correct answer exactly once, then up to three alternatives taken from
    different positions of the pool of other values, so one more than the
    smaller of 3 and the size of that pool; no entry is repeated unless the
    pool itself repeats a value, whatever the size of the pool. *)
Theorem quiz_all_choices_no_padding field words correct_answer W :
  let wrong_pool :=
    map (λ tw, field (entry_word tw))
        (filter (λ tw, field (entry_word tw) ≠ correct_answer) words) in
  ∃ choices W',
    quiz_all_choices E field words correct_answer W = Done choices W' ∧
    doc W' = doc W ∧ log W' = log W ∧
    length choices = S (Nat.min 3 (length wrong_pool)) ∧
    count_occ string_dec choices correct_answer = 1%nat ∧
    (∀ x, x ∈ choices → x ≠ correct_answer → x ∈ wrong_pool) ∧
    (NoDup wrong_pool → NoDup choices).
Proof.
  intros wrong_pool.
  destruct (quiz_all_choices_run field words correct_answer W)
    as (sh & choices & Hrun & Hsh & Hch).
  fold wrong_pool in Hsh.
  assert (∀ x, x ∈ wrong_pool → x ≠ correct_answer) as Hwrong.
  { by intros x (v & -> & [Hv Hin]%list_elem_of_filter)%list_elem_of_fmap. }
  assert (∀ x, x ∈ take 3 sh → x ∈ wrong_pool) as Hrest.
  { intros x Hx. rewrite <- Hsh. eapply elem_of_sublist; [exact Hx|apply sublist_take]. }
  eexists choices, _. split; [exact Hrun|]. cbn [doc log]. split_and!; [done|done| | | |].
  - rewrite (Permutation_length Hch). simpl.
    rewrite length_take, (Permutation_length Hsh). done.
  - rewrite (Permutation_count_occ string_dec) in Hch. rewrite Hch.
    cbn [count_occ]. destruct (string_dec correct_answer correct_answer); [|done].
    rewrite count_occ_absent; [done|].
    intros Hin. by apply Hrest, Hwrong in Hin.
  - intros x Hx Hne. rewrite Hch in Hx.
    apply elem_of_cons in Hx as [->|Hx]; [done|]. by apply Hrest.
  - intros Hnd. rewrite Hch. apply NoDup_cons. split.
    + intros Hin. by apply Hrest, Hwrong in Hin.
    + apply (sublist_NoDup _ sh); [by rewrite Hsh|apply sublist_take].
Qed.

(** One question never fails, and is scored under the category of the word. *)
Lemma quiz_all_question_spec words cat_map qi tw W :
  ∃ ok choices,
    quiz_all_question E words cat_map qi tw W =
    Done ok (World (scored (doc W) (_get_cat tw cat_map) (entry_word tw) ok 10)
               (Saved (scored (doc W) (_get_cat tw cat_map) (entry_word tw) ok 10) ::
                  Feedback ok :: Asked ::
                  Question (if qi mod 2 =? 1 then en (entry_word tw) else de (entry_word tw))
                    choices :: log W)
               (S (S (rng W))) (ticks W) (S (prompts W))).
Proof.
  unfold quiz_all_question.
  set (fld := if qi mod 2 =? 1 then de else en).
  set (ans := if qi mod 2 =? 1 then de (entry_word tw) else en (entry_word tw)).
  destruct (quiz_all_choices_run fld words ans W) as (sh & choices & Hrun & _ & Hch).
  unfold mbind at 1, M_bind at 1. rewrite Hrun.
  unfold mbind, M_bind, emit, ask_pick. simpl.
  assert (0 < length choices)%nat as Hpos.
  { rewrite (Permutation_length Hch). simpl. lia. }
  destruct E_sound as (_ & _ & Hpick).
  specialize (Hpick (prompts W) (length choices) Hpos).
  destruct (py_index_in_range choices (Z.of_nat (pick E (prompts W) (length choices)) - 1))
    as [selected Hsel]; [unfold len; lia|].
  rewrite Hsel. rewrite score_answer_spec. simpl. by eexists _, _.
Qed.

Lemma quiz_all_loop_spec words cat_map questions : ∀ qi score W,
  ∃ score' W',
    quiz_all_loop E words cat_map qi questions score W = Done score' W' ∧
    length (saves (log W')) = (length (saves (log W)) + length questions)%nat ∧
    xp (doc W') = xp (doc W) + 10 * (score' - score) ∧
    0 <= score' - score <= len questions ∧
    grows W W'.
Proof.
  induction questions as [|tw rest IH]; intros qi score W.
  - exists score, W. split_and!; [done|simpl; lia|lia|lia|unfold len; simpl; lia|apply grows_refl].
  - destruct (quiz_all_question_spec words cat_map qi tw W) as (ok & choices & Hq).
    cbn [quiz_all_loop]. unfold mbind, M_bind. rewrite Hq.
    set (W1 := World _ _ _ _ _).
    destruct (IH (qi + 1) (if ok then score + 1 else score) W1)
      as (score' & W' & Hrun & Hsaves & Hxp & Hsc & Hg).
    exists score', W'. split_and!; [done| | | | |].
    + rewrite Hsaves. simpl. lia.
    + rewrite Hxp. subst W1. simpl. unfold scored. destruct ok; simpl; lia.
    + destruct ok; lia.
    + unfold len in *. cbn [length]. destruct ok; lia.
    + eapply grows_trans; [|exact Hg].
      eapply (grows_scored W W1 (_get_cat tw cat_map) (entry_word tw) ok 10); [lia|done].
Qed.

(** X22.  The quiz over all categories scores every answer under the
    category of the word asked; with at least two words and mastery values
    in [0,5] it returns, having asked between 1 and [min 10 (len words)]
    questions, written the document once per question and earned 10 xp per
    point; the total shown in the final panel is [min 10 (len words)] even
    when fewer questions were asked, which is what happens when every draw
    gives the same word: then one question is asked.  With fewer than two
    words it only prints its message. *)
Theorem quiz_all_accounting words cat_map W :
  (∀ qi tw, ∃ ok W',
     quiz_all_question E words cat_map qi tw W = Done ok W' ∧
     doc W' = scored (doc W) (_get_cat tw cat_map) (entry_word tw) ok 10 ∧
     saves (log W') = doc W' :: saves (log W)) ∧
  (2 <= len words → mastery_bounded (doc W) →
     ∃ asked score W',
       _quiz_all E words cat_map W = Done () W' ∧
       (1 ≤ asked)%nat ∧ Z.of_nat asked <= Z.min 10 (len words) ∧
       length (saves (log W')) = (length (saves (log W)) + asked)%nat ∧
       0 <= score <= Z.of_nat asked ∧
       xp (doc W') = xp (doc W) + 10 * score ∧
       Report score (Z.min 10 (len words)) ∈ log W' ∧
       grows W W' ∧
       ((∀ k m, rand_index E k m = 0%nat) → asked = 1%nat)) ∧
  (len words < 2 →
     _quiz_all E words cat_map W =
       Done () (World (doc W)
                  (PressEnter :: Say "[red]Not enough words for a quiz.[/red]" :: log W)
                  (rng W) (ticks W) (prompts W))).
Proof.
  split_and!.
  - intros qi tw.
    destruct (quiz_all_question_spec words cat_map qi tw W) as (ok & choices & Hq).
    eexists ok, _. split; [exact Hq|]. by cbn [doc log].
  - intros Hlen Hp. unfold _quiz_all.
    destruct (Z.ltb_spec (len words) 2) as [?|_]; [lia|].
    unfold mbind at 1, M_bind at 1, get_doc.
    set (n := Z.min 10 (len words)).
    assert (1 <= sum (map (λ tw, 5 - get_mastery (doc W) (_get_cat tw cat_map)
                                       (de (entry_word tw)) + 1) words)) as Htot.
    { apply sum_pos; [by destruct words|].
      apply Forall_map, Forall_forall. intros x _.
      pose proof (get_mastery_bounded (doc W) (_get_cat x cat_map) (de (entry_word x)) Hp).
      lia. }
    destruct (Z.eqb_spec (sum (map (λ tw, 5 - get_mastery (doc W) (_get_cat tw cat_map)
                                          (de (entry_word tw)) + 1) words)) 0) as [?|_]; [lia|].
    assert (words ≠ []) as Hne by (by destruct words).
    assert (2 <= n) as Hn by (unfold n; lia).
    destruct (draw_loop_spec words n Hne (Z.to_nat (n * 20)) 0 ∅ [] [] W)
      as (chosen & questions & idxs & W1 & Hrun & Hdoc & Hlog & _ & _ & _ & _ & Hle & Hsome);
      [lia|lia|constructor|by intros i; rewrite elem_of_empty, elem_of_nil|constructor
      |unfold len; simpl; lia|lia|].
    unfold mbind at 1, M_bind at 1. rewrite Hrun. cbn [snd].
    destruct (quiz_all_loop_spec words cat_map questions 1 0 W1)
      as (score & W2 & Hloop & Hsaves & Hxp & Hsc & Hg).
    unfold mbind at 1, M_bind at 1. rewrite Hloop.
    exists (length questions), score. eexists. split; [reflexivity|].
    cbn [doc log]. rewrite !saves_other by done.
    split_and!.
    + specialize (Hsome ltac:(lia)). destruct questions; [done|simpl; lia].
    + exact Hle.
    + by rewrite Hsaves, Hlog.
    + unfold len in Hsc. lia.
    + unfold len in Hsc. lia.
    + rewrite Hxp, Hdoc. lia.
    + right. left.
    + eapply grows_trans; [apply (grows_same_doc W W1 Hdoc)|].
      eapply grows_trans; [exact Hg|]. by apply grows_same_doc.
    + intros Hconst.
      destruct words as [|w0 ws]; [done|].
      revert Hrun. destruct (Z.to_nat (n * 20)) as [|fuel] eqn:Hfuel; [lia|].
      simpl. destruct (Z.ltb_spec (len (@nil tagged)) n) as [_|H1]; [|unfold len in H1; simpl in H1; lia].
      destruct (Z.ltb_spec 0 (n * 20)) as [_|?]; [|lia]. simpl.
      unfold mbind, M_bind, random_index. simpl. rewrite Hconst.
      destruct (decide (0%nat ∈ (∅ : gset nat))) as [Hin|_];
        [by apply elem_of_empty in Hin|].
      simpl.
      rewrite (right_id_L ∅ (∪) ({[0%nat]} : gset nat)).
      set (W0 := World _ _ _ _ _).
      destruct (draw_loop_constant (w0 :: ws) n w0 eq_refl Hconst fuel 1 W0) as [W' HW']; [lia|].
      change (0 + 1) with 1. rewrite HW'. by intros [= _ <- _].
  - intros Hlen. unfold _quiz_all.
    by destruct (Z.ltb_spec (len words) 2) as [_|?]; [|lia].
Qed.
End QuizAll.

Lemma quiz_all_accounting_witness :
  ∃ asked score W',
    _quiz_all stuck_env (merge_all sample_vocab) ∅ (world0 fresh_progress) = Done () W' ∧
    asked = 1%nat ∧ 0 <= score <= 1 ∧
    Report score (Z.min 10 (len (merge_all sample_vocab))) ∈ log W'.
Proof.
  destruct (quiz_all_accounting stuck_env stuck_env_sound (merge_all sample_vocab) ∅
              (world0 fresh_progress))
    as (_ & H & _).
  destruct H as (asked & score & W' & Hrun & _ & _ & _ & Hsc & _ & Hrep & _ & Hone).
  - vm_compute. discriminate.
  - apply fresh_progress_bounded.
  - exists asked, score, W'. rewrite (Hone (λ _ _, eq_refl)) in Hsc.
    split_and!; [exact Hrun|exact (Hone (λ _ _, eq_refl))|lia|lia|exact Hrep].
Defined.

(** The same run, computed: one question, and a panel that counts three. *)
Example quiz_all_one_question :
  ∃ W', _quiz_all stuck_env (merge_all sample_vocab) ∅ (world0 fresh_progress) = Done () W' ∧
        length (saves (log W')) = 1%nat ∧ Report 0 3 ∈ log W'.
Proof. eexists. split; [by vm_compute|]. vm_compute. split; [done|]. right. left. Qed.

Lemma quiz_all_choices_no_padding_witness :
  ∃ choices W',
    quiz_all_choices demo_env de (merge_all sample_vocab) "rot" (world0 fresh_progress) =
      Done choices W' ∧
    length choices = 3%nat ∧ count_occ string_dec choices "rot" = 1%nat.
Proof.
  destruct (quiz_all_choices_no_padding demo_env demo_env_sound de (merge_all sample_vocab)
              "rot" (world0 fresh_progress))
    as (choices & W' & Hrun & _ & _ & Hlen & Hocc & _).
  exists choices, W'. split_and!; [exact Hrun|exact Hlen|exact Hocc].
Defined.

(** ** The mode loop of a category *)

Section Play.
Variable E : env.
Variable inputs : nat → string.

Ltac run_prim :=
  eapply wlp_done; [reflexivity|]; cbn beta; cbn [doc log rng ticks prompts].
Ltac run_bind := apply wlp_bind.

(** The menu reads one answer and changes nothing else. *)
Lemma mode_menu_spec label W :
  ∃ mode,
    mode_menu inputs label W =
      Done mode (World (doc W) (Asked :: Say label :: log W) (rng W) (ticks W)
                   (S (prompts W))) ∧
    (mode = None ↔ typed_action inputs (prompts W) = "b").
Proof.
  unfold mode_menu, mbind, M_bind, emit, ask_action, ask_text, mbind, M_bind, mret, M_ret.
  cbn [doc log rng ticks prompts]. fold (typed_action inputs (prompts W)).
  eexists. split; [reflexivity|].
  destruct (String.eqb_spec (typed_action inputs (prompts W)) "1") as [->|_]; [done|].
  destruct (String.eqb_spec (typed_action inputs (prompts W)) "2") as [->|_]; [done|].
  destruct (String.eqb_spec (typed_action inputs (prompts W)) "3") as [->|_]; [done|].
  destruct (String.eqb_spec (typed_action inputs (prompts W)) "4") as [->|_]; [done|].
  by destruct (String.eqb_spec (typed_action inputs (prompts W)) "b") as [->|?].
Qed.

Lemma play_category_grows category words label fuel : ∀ W,
  wlp (play_category E inputs fuel category words label) (λ _ W', grows W W') W.
Proof.
  induction fuel as [|fuel IH]; intros W; [apply wlp_out_of_fuel|].
  cbn [play_category]. run_bind.
  destruct (mode_menu_spec label W) as (mode & Hmenu & _).
  eapply wlp_done; [exact Hmenu|]. cbn beta.
  set (W1 := World _ _ _ _ _).
  assert (grows W W1) as HW1 by (by apply grows_same_doc).
  clearbody W1.
  assert (∀ W2, grows W1 W2 →
            wlp (play_category E inputs fuel category words label)
              (λ _ W', grows W W') W2) as Hnext.
  { intros W2 Hg. eapply wlp_mono; [apply IH|]. cbn beta.
    intros _ W' Hg'. eapply grows_trans; [exact HW1|]. by eapply grows_trans. }
  destruct mode as [mode|]; [|by apply wlp_ret].
  destruct (String.eqb mode "__invalid__"); [apply Hnext, grows_refl|].
  run_bind.
  assert (∀ (m : M unit),
            wlp m (λ _ W2, grows W1 W2) W1 →
            wlp m (λ _ W2, wlp (play_category E inputs fuel category words label)
                             (λ _ W', grows W W') W2) W1)
    as Hmode.
  { intros m Hm. eapply wlp_mono; [exact Hm|]. cbn beta.
    intros _ W2 Hg. by apply Hnext. }
  apply Hmode.
  destruct (String.eqb mode "learn"); [apply learn_mode_only_adds|].
  destruct (String.eqb mode "quiz"); [apply quiz_mode_only_adds|].
  destruct (String.eqb mode "type"); [apply type_it_mode_only_adds|].
  destruct (String.eqb mode "speed"); [apply speed_round_only_adds|].
  apply wlp_ret, grows_refl.
Qed.

(** X24.  A whole visit to a category, whatever modes are chosen and in
    whatever order, takes nothing away: when [play_category] returns, xp and
    personal best are at least what they were, streak and stored date are
    untouched and mastery values stay in [0,5]; and when the first answer
    at the menu is "b" (in any case, with any white space around it) it
    returns at once, the document as it was and nothing written. *)
Theorem play_category_only_adds fuel category words label W :
  wlp (play_category E inputs fuel category words label) (λ _ W', grows W W') W ∧
  (typed_action inputs (prompts W) = "b" →
     play_category E inputs (S fuel) category words label W =
       Done () (World (doc W) (Asked :: Say label :: log W) (rng W) (ticks W)
                  (S (prompts W)))).
Proof.
  split; [apply play_category_grows|].
  intros Hb. cbn [play_category].
  destruct (mode_menu_spec label W) as (mode & Hmenu & Hback).
  unfold mbind at 1, M_bind at 1. rewrite Hmenu.
  apply Hback in Hb. by subst mode.
Qed.
End Play.

Lemma play_category_only_adds_witness :
  play_category demo_env (λ _, " B ") 1 "animals" zoo "Animals" (world0 fresh_progress) =
    Done () (World fresh_progress [Asked; Say "Animals"] 0 0 1).
Proof.
  apply (play_category_only_adds demo_env (λ _, " B ") 0 "animals" zoo "Animals"
           (world0 fresh_progress)).
  vm_compute. reflexivity.
Defined.

(** A visit: one quiz over the whole list, a mistyped choice, and back. *)
Example play_category_visit :
  ∃ W', play_category demo_env sample_visitor 3 "animals" zoo "Animals"
          (world0 fresh_progress) = Done () W' ∧
        length (saves (log W')) = 5%nat ∧ prompts W' = 8%nat ∧
        streak (doc W') = 0 ∧ 0 <= xp (doc W').
Proof. eexists. split; [by vm_compute|]. by vm_compute. Qed.
